(** * The Third Sanctuary: the prophecy field of [src/Canvas.tsx]

    A shallow embedding of [Canvas.tsx], in two parts:

    - [Layout]: the grid of [Prophecies] (lines 100-167), which places
      [prophecyCount] panels of a layer on [itemsPerRow] columns;
    - [Panel]: one [Prophecy] (lines 13-98): its aspect ratio and plane
      geometry, the fragment shader of its material, and the [useFrame]
      callback that advances its animation.

    Numbers.  A JavaScript [number] is read as an exact number: the grid only
    divides, rounds and takes remainders of integers, so [Layout] is written
    over [Z] and [Q] and computes; the panel calls [Math.sin] and
    [Math.PI], so [Panel] is written over [R].  Rounding of binary floating
    point is outside this model. *)

From Stdlib Require Import ZArith QArith Qround Qreals List Lia Psatz.
From Stdlib Require Import Reals.
Import ListNotations.

(** ** The grid of [Prophecies] *)

Module Layout.

Local Open Scope Q_scope.

(** [type Layer] (lines 100-105). *)
Record Layer := {
  prophecyCount : Z;
  zPos : Q;
  grayHintDegre : Q;
  itemsPerRow : Z
}.

(** [const layers] (lines 107-132). *)
Definition layers : list Layer :=
  [ {| grayHintDegre := 0;   prophecyCount := 150; zPos := 6;   itemsPerRow := 7 |};
    {| grayHintDegre := -5;  prophecyCount := 100; zPos := 2;   itemsPerRow := 8 |};
    {| grayHintDegre := -8;  prophecyCount := 100; zPos := -3;  itemsPerRow := 9 |};
    {| grayHintDegre := -12; prophecyCount := 100; zPos := -8;  itemsPerRow := 9 |} ].

(** [type ProphecyProps] (lines 6-11), as [Prophecies] fills it. *)
Record ProphecyProps := {
  imageIndex : Z;
  position : Q * Q * Q;
  size : Q;
  grayHint : Q
}.

(** The indices that [Array.from({ length: n }).map((_, index) => ...)]
    visits: [0, 1, ..., n-1], none when [n <= 0]. *)
Definition indices (n : Z) : list Z := map Z.of_nat (seq 0 (Z.to_nat n)).

Definition spacingX : Q := 2.5.
Definition spacingY : Q := 2.5.

(** [rows = Math.ceil(layer.prophecyCount / columns)] (line 139). *)
Definition rows (columns prophecyCount : Z) : Z :=
  Qceiling (inject_Z prophecyCount / inject_Z columns).

(** [col = index % columns] (line 146).  [%] is the truncated remainder,
    [Z.rem]; on the indices of a layer it is the usual [mod]. *)
Definition col (columns index : Z) : Z := Z.rem index columns.

(** [row = Math.floor(index / columns)] (line 147). *)
Definition row (columns index : Z) : Z :=
  Qfloor (inject_Z index / inject_Z columns).

(** [x = (col - (columns - 1) / 2) * spacingX] (line 149). *)
Definition x (columns index : Z) : Q :=
  (inject_Z (col columns index) - (inject_Z columns - 1) / 2) * spacingX.

(** [y = ((rows - 1) / 2 - row) * spacingY] (line 150). *)
Definition y (columns prophecyCount index : Z) : Q :=
  ((inject_Z (rows columns prophecyCount) - 1) / 2
   - inject_Z (row columns index)) * spacingY.

(** The grid cell and the placement of one index. *)
Definition cell (columns index : Z) : Z * Z :=
  (row columns index, col columns index).

Definition placement (columns prophecyCount index : Z) : Q * Q :=
  (x columns index, y columns prophecyCount index).

(** The [<Prophecy ... />] element built for one index (lines 153-159). *)
Definition prophecy (layer : Layer) (index : Z) : ProphecyProps :=
  let columns := itemsPerRow layer in
  {| position := (x columns index, y columns (prophecyCount layer) index, 0);
     imageIndex := Z.rem index 20 + 1;
     grayHint := grayHintDegre layer;
     size := 1.2 |}.

(** One [<group position={[0, 0, layer.zPos]}>] with its children. *)
Record Group := {
  groupPosition : Q * Q * Q;
  children : list ProphecyProps
}.

Definition group (layer : Layer) : Group :=
  {| groupPosition := (0, 0, zPos layer);
     children := map (prophecy layer) (indices (prophecyCount layer)) |}.

(** [Prophecies] (lines 134-167). *)
Definition Prophecies : list Group := map group layers.

(** The x and the y coordinates of all placements of a layer, and the
    arithmetic mean of a list of numbers. *)
Definition xs (columns prophecyCount : Z) : list Q :=
  map (x columns) (indices prophecyCount).

Definition ys (columns prophecyCount : Z) : list Q :=
  map (y columns prophecyCount) (indices prophecyCount).

Definition sumQ (l : list Q) : Q := fold_right Qplus 0 l.

Definition mean (l : list Q) : Q :=
  sumQ l / inject_Z (Z.of_nat (length l)).

(** The sum of a list of integers (of column or row numbers). *)
Definition sumZ (l : list Z) : Z := fold_right Z.add 0%Z l.

(** Two placements are the same point when both coordinates agree. *)
Definition same_placement (p q : Q * Q) : Prop :=
  fst p == fst q /\ snd p == snd q.

(** The first of the [layers], for the examples. *)
Definition sevenColumns : Layer :=
  {| grayHintDegre := 0; prophecyCount := 150; zPos := 6; itemsPerRow := 7 |}.

End Layout.

(** ** One [Prophecy] panel *)

Module Panel.

Local Open Scope R_scope.

(** [THREE.Vector2], [THREE.Vector3] and the GLSL [vec3], [vec4]. *)
Record Vector2 := { v2x : R; v2y : R }.
Record Vector3 := { v3x : R; v3y : R; v3z : R }.
Record vec3 := { c_r : R; c_g : R; c_b : R }.
Record vec4 := { rgb : vec3; alpha : R }.

Definition v2add (p q : Vector2) : Vector2 :=
  {| v2x := v2x p + v2x q; v2y := v2y p + v2y q |}.

Definition vec3add (p q : vec3) : vec3 :=
  {| c_r := c_r p + c_r q; c_g := c_g p + c_g q; c_b := c_b p + c_b q |}.

(** GLSL [vec3(s)]: the scalar on every component. *)
Definition vec3s (s : R) : vec3 := {| c_r := s; c_g := s; c_b := s |}.

(** A loaded texture: [image] is absent until the picture is decoded. *)
Record Image := { width : Z; height : Z }.
Record Texture := { image : option Image }.

(** [aspectRatio] (lines 21-24). *)
Definition aspectRatio (prophecyTexture : Texture) : R :=
  match image prophecyTexture with
  | None => 1
  | Some img => IZR (width img) / IZR (height img)
  end.

(** [<planeGeometry args={[aspectRatio * size, size]} />] (line 94):
    width and height of the plane. *)
Definition planeGeometry (prophecyTexture : Texture) (size : R) : R * R :=
  (aspectRatio prophecyTexture * size, size).

(** The uniforms of [shaderMaterial] (lines 28-33). *)
Record Uniforms := {
  uProphecy : Texture;
  uOcean : Texture;
  uOffset : Vector2;
  uGrayHint : R
}.

Definition set_uOffset (u : Uniforms) (o : Vector2) : Uniforms :=
  {| uProphecy := uProphecy u; uOcean := uOcean u;
     uOffset := o; uGrayHint := uGrayHint u |}.

Section Shader.

(** GLSL's [texture2D]: the texel of a texture at a coordinate, whatever
    the addressing mode of the texture makes of it. *)
Variable texture2D : Texture -> Vector2 -> vec4.

(** [fragmentShader] (lines 41-62).  [None] is [discard], [Some c] is
    [gl_FragColor = c]. *)
Definition fragmentShader (u : Uniforms) (vUv : Vector2) : option vec4 :=
  let prophecyColor := texture2D (uProphecy u) vUv in
  let oceanColor := texture2D (uOcean u) (v2add vUv (uOffset u)) in
  let blueTint := {| c_r := 0.0; c_g := 0.1; c_b := 0.6 |} in
  let grayHint := vec3s (0.1 * uGrayHint u) in
  let finalColor := vec3add (vec3add (rgb oceanColor) blueTint) grayHint in
  if Rlt_dec (alpha prophecyColor) 0.5
  then Some {| rgb := finalColor; alpha := alpha oceanColor |}
  else None.

End Shader.

(** The mesh behind [meshRef]: only its position is touched. *)
Record Mesh := { meshPosition : Vector3 }.

(** [mesh.position.setY(newY)]. *)
Definition setY (m : Mesh) (newY : R) : Mesh :=
  {| meshPosition := {| v3x := v3x (meshPosition m); v3y := newY;
                        v3z := v3z (meshPosition m) |} |}.

(** What a mounted panel keeps between frames: [accumRef.current],
    [timeRef.current], the uniforms of its material and [meshRef.current]
    ([None] for [null]). *)
Record State := {
  accumRef : R;
  timeRef : R;
  material : Uniforms;
  meshRef : option Mesh
}.

(** [targetDelta = 1 / 30] (line 70). *)
Definition targetDelta : R := 1 / 30.

Section Prophecy.

(** The props and the hooks of one panel: [position], [grayHint], the two
    textures, and the number [Math.random()] returned when [floatOffset]
    was memoised. *)
Variable position : Vector3.
Variable grayHint : R.
Variables prophecyTexture oceanTexture : Texture.
Variable random : R.

(** [startY = position[1]] (line 18). *)
Definition startY : R := v3y position.

(** [floatOffset = Math.random() * Math.PI * 2] (line 67). *)
Definition floatOffset : R := random * PI * 2.

(** The panel once mounted: both refs at 0 (lines 68-69), [uOffset] at
    the origin (line 31), the mesh at [position] (line 93). *)
Definition mounted : State :=
  {| accumRef := 0;
     timeRef := 0;
     material := {| uProphecy := prophecyTexture; uOcean := oceanTexture;
                    uOffset := {| v2x := 0; v2y := 0 |};
                    uGrayHint := grayHint |};
     meshRef := Some {| meshPosition := position |} |}.

(** The test of line 75, after line 73 added [delta]. *)
Definition applied (delta : R) (st : State) : bool :=
  if Rge_dec (accumRef st + delta) targetDelta then true else false.

(** The [useFrame] callback (lines 72-90). *)
Definition onFrame (delta : R) (st : State) : State :=
  let accum := accumRef st + delta in
  if Rge_dec accum targetDelta then
    let time := timeRef st + targetDelta in
    let u := material st in
    let offset :=
      {| v2x := v2x (uOffset u) + targetDelta * 0.1;
         v2y := v2y (uOffset u) - targetDelta * 0.1 |} in
    {| accumRef := 0;
       timeRef := time;
       material := set_uOffset u offset;
       meshRef :=
         match meshRef st with
         | Some mesh =>
             let floatAmount := 0.1 in
             let speed := 4.0 in
             let newY :=
               startY + sin (time * speed + floatOffset) * floatAmount in
             Some (setY mesh newY)
         | None => None
         end |}
  else
    {| accumRef := accum;
       timeRef := timeRef st;
       material := material st;
       meshRef := meshRef st |}.

(** The ticks that one frame applies: one or none. *)
Definition tick (delta : R) (st : State) : nat :=
  if applied delta st then 1 else 0.

(** The frames of a session, oldest first, and the number of ticks they
    applied. *)
Fixpoint run (deltas : list R) (st : State) : State :=
  match deltas with
  | [] => st
  | delta :: rest => run rest (onFrame delta st)
  end.

Fixpoint ticks (deltas : list R) (st : State) : nat :=
  match deltas with
  | [] => 0
  | delta :: rest =>
      tick delta st + ticks rest (onFrame delta st)
  end.

(** The y coordinate of the mesh, when there is one. *)
Definition positionY (st : State) : option R :=
  option_map (fun m => v3y (meshPosition m)) (meshRef st).

End Prophecy.

(** The total of a list of frame deltas. *)
Definition sumR (l : list R) : R := fold_right Rplus 0 l.

(** The panel that React mounts for one [<Prophecy ... />] element of the
    grid: its [position] and [grayHint] props, read as real numbers. *)
Definition positionOf (props : Layout.ProphecyProps) : Vector3 :=
  let '(x, y, z) := Layout.position props in
  {| v3x := Q2R x; v3y := Q2R y; v3z := Q2R z |}.

Definition mount (props : Layout.ProphecyProps)
    (prophecyTexture oceanTexture : Texture) : State :=
  mounted (positionOf props) (Q2R (Layout.grayHint props))
    prophecyTexture oceanTexture.

(** The data of the examples: a panel at the origin of its layer, with the
    default [grayHint = 1] (line 13), whose textures carry no image yet and
    whose [Math.random()] came out as 0. *)
Definition origin : Vector3 := {| v3x := 0; v3y := 0; v3z := 0 |}.
Definition loading : Texture := {| image := None |}.
Definition sample : State := mounted origin 1 loading loading.

(** A second panel, elsewhere in a darker layer and with another phase. *)
Definition elsewhere : Vector3 := {| v3x := 2.5; v3y := -5; v3z := 0 |}.
Definition other : State := mounted elsewhere (-8) loading loading.

(** Two sessions for the examples: a long frame after a shorter one, and
    frames at about 50 and 20 frames per second. *)
Definition uneven : list R := [4 * targetDelta; 6 * targetDelta].
Definition mixed : list R := [0.02; 0.02; 0.05].

(** A sampler for the examples: every texture is one flat colour whose
    alpha is the first coordinate of the place sampled. *)
Definition ramp (_ : Texture) (uv : Vector2) : vec4 :=
  {| rgb := {| c_r := 0.2; c_g := 0.3; c_b := 0.4 |}; alpha := v2x uv |}.

(** The uniforms of the sample panel once its background has scrolled by a
    quarter of the texture. *)
Definition scrolled : Uniforms :=
  set_uOffset (material sample) {| v2x := 0.25; v2y := -0.25 |}.

(** Another one, which repeats after one unit along both axes as a
    texture with [RepeatWrapping] (line 19) does. *)
Definition wave (_ : Texture) (uv : Vector2) : vec4 :=
  {| rgb := {| c_r := 0.2; c_g := 0.3; c_b := 0.4 |};
     alpha := sin (v2x uv * (2 * PI)) * sin (v2y uv * (2 * PI)) |}.

End Panel.

(** ** Properties of the grid *)

Module LayoutFacts.

Import Layout.
Local Open Scope Z_scope.

(** *** Indices *)

Lemma in_indices (n i : Z) : In i (indices n) <-> 0 <= i < n.
Proof.
  unfold indices. rewrite in_map_iff. split.
  - intros (k & <- & Hk). apply in_seq in Hk. lia.
  - intros Hi. exists (Z.to_nat i). split; [lia | apply in_seq; lia].
Qed.

Lemma length_indices (n : Z) : 0 <= n -> Z.of_nat (length (indices n)) = n.
Proof.
  intros Hn. unfold indices. rewrite length_map, length_seq. lia.
Qed.

Lemma seq_from (a b : nat) :
  map Z.of_nat (seq a b) = map (Z.add (Z.of_nat a)) (map Z.of_nat (seq 0 b)).
Proof.
  revert a. induction b as [|b IH]; intros a; [reflexivity|].
  cbn [seq map]. f_equal; [lia|].
  rewrite (IH (S a)), (IH 1%nat), !map_map.
  apply map_ext. intros k. lia.
Qed.

Lemma indices_app (a b : Z) :
  0 <= a -> 0 <= b ->
  indices (a + b) = indices a ++ map (Z.add a) (indices b).
Proof.
  intros Ha Hb. unfold indices.
  rewrite Z2Nat.inj_add, seq_app, map_app by assumption.
  f_equal. cbn [Nat.add]. rewrite seq_from, Z2Nat.id by assumption.
  reflexivity.
Qed.

Lemma sumZ_app (l1 l2 : list Z) : sumZ (l1 ++ l2) = sumZ l1 + sumZ l2.
Proof. unfold sumZ. induction l1 as [|h t IH]; simpl; lia. Qed.

Lemma sumZ_const (k : Z) (l : list Z) :
  sumZ (map (fun _ => k) l) = Z.of_nat (length l) * k.
Proof.
  unfold sumZ. induction l as [|h t IH]; [reflexivity|].
  cbn [map fold_right length]. rewrite IH. lia.
Qed.

(** [0 + 1 + ... + (n-1)]. *)
Lemma sumZ_indices (n : nat) :
  2 * sumZ (indices (Z.of_nat n)) = Z.of_nat n * (Z.of_nat n - 1).
Proof.
  induction n as [|n IH]; [reflexivity|].
  rewrite Nat2Z.inj_succ, <- Z.add_1_r, indices_app, sumZ_app by lia.
  change (indices 1) with [0]. unfold sumZ at 2. cbn [map fold_right]. lia.
Qed.

(** *** Rows and columns as integer division *)

Lemma row_div (columns index : Z) : row columns index = index / columns.
Proof. unfold row. symmetry. apply Zdiv_Qdiv. Qed.

Lemma col_mod (columns index : Z) :
  0 <= index -> 0 < columns -> col columns index = index mod columns.
Proof. intros Hi Hc. unfold col. apply Z.rem_mod_nonneg; assumption. Qed.

Lemma rows_multiple (columns r : Z) :
  0 < columns -> rows columns (r * columns) = r.
Proof.
  intros Hc. unfold rows.
  transitivity (Qceiling (inject_Z r)); [|apply Qceiling_Z].
  apply Qceiling_comp. rewrite inject_Z_mult. field.
  intros H. apply (inject_Z_injective columns 0) in H. lia.
Qed.

(** An index is recovered from its cell. *)
Lemma index_of_cell (columns index : Z) :
  0 <= index -> 0 < columns ->
  index = columns * row columns index + col columns index.
Proof.
  intros Hi Hc. rewrite row_div, col_mod by assumption.
  apply Z.div_mod. lia.
Qed.

Lemma cell_block (columns r j : Z) :
  0 <= r -> 0 <= j < columns ->
  row columns (r * columns + j) = r /\ col columns (r * columns + j) = j.
Proof.
  intros Hr Hj. rewrite row_div, col_mod by nia. split.
  - rewrite Z.div_add_l by lia. rewrite Z.div_small by lia. lia.
  - rewrite Z.add_comm, Z.mod_add by lia. apply Z.mod_small. lia.
Qed.

(** *** Sums over full rows *)

Lemma sum_col_block (columns r : Z) :
  0 <= r -> 0 < columns ->
  sumZ (map (col columns) (map (Z.add (r * columns)) (indices columns)))
  = sumZ (indices columns).
Proof.
  intros Hr Hc. rewrite map_map. f_equal.
  rewrite <- (map_id (indices columns)) at 2.
  apply map_ext_in. intros j Hj. apply in_indices in Hj.
  apply cell_block; assumption.
Qed.

Lemma sum_row_block (columns r : Z) :
  0 <= r -> 0 < columns ->
  sumZ (map (row columns) (map (Z.add (r * columns)) (indices columns)))
  = columns * r.
Proof.
  intros Hr Hc. rewrite map_map.
  rewrite (map_ext_in _ (fun _ => r)).
  - rewrite sumZ_const, length_indices; lia.
  - intros j Hj. apply in_indices in Hj. apply cell_block; assumption.
Qed.

Lemma sum_col_full (columns : Z) (r : nat) :
  0 < columns ->
  2 * sumZ (map (col columns) (indices (Z.of_nat r * columns)))
  = Z.of_nat r * (columns * (columns - 1)).
Proof.
  intros Hc. induction r as [|r IH]; [reflexivity|].
  replace (Z.of_nat (S r) * columns) with (Z.of_nat r * columns + columns) by lia.
  rewrite indices_app, map_app, sumZ_app, sum_col_block by nia.
  pose proof (sumZ_indices (Z.to_nat columns)) as Hs.
  rewrite Z2Nat.id in Hs by lia. lia.
Qed.

Lemma sum_row_full (columns : Z) (r : nat) :
  0 < columns ->
  2 * sumZ (map (row columns) (indices (Z.of_nat r * columns)))
  = columns * (Z.of_nat r * (Z.of_nat r - 1)).
Proof.
  intros Hc. induction r as [|r IH]; [cbn; lia|].
  replace (Z.of_nat (S r) * columns) with (Z.of_nat r * columns + columns) by lia.
  rewrite indices_app, map_app, sumZ_app, sum_row_block by nia.
  nia.
Qed.

(** *** The sums of the coordinates, from the sums of columns and rows *)

Local Open Scope Q_scope.

Lemma sumQ_x (columns : Z) (l : list Z) :
  sumQ (map (x columns) l) ==
  (inject_Z (sumZ (map (col columns) l))
   - inject_Z (Z.of_nat (length l)) * ((inject_Z columns - 1) / 2)) * spacingX.
Proof.
  unfold sumQ, sumZ. induction l as [|i l IH].
  - cbn. ring.
  - cbn [map fold_right length]. rewrite IH, Nat2Z.inj_succ, <- Z.add_1_r.
    rewrite !inject_Z_plus. unfold x. change (inject_Z 1) with 1. field.
Qed.

Lemma sumQ_y (columns prophecyCount : Z) (l : list Z) :
  sumQ (map (y columns prophecyCount) l) ==
  (inject_Z (Z.of_nat (length l))
     * ((inject_Z (rows columns prophecyCount) - 1) / 2)
   - inject_Z (sumZ (map (row columns) l))) * spacingY.
Proof.
  unfold sumQ, sumZ. induction l as [|i l IH].
  - cbn. ring.
  - cbn [map fold_right length]. rewrite IH, Nat2Z.inj_succ, <- Z.add_1_r.
    rewrite !inject_Z_plus. unfold y. change (inject_Z 1) with 1. field.
Qed.

(** A mean is zero as soon as the sum is. *)
Lemma mean_zero (l : list Q) : sumQ l == 0 -> mean l == 0.
Proof.
  intros H. unfold mean, Qdiv. rewrite H. ring.
Qed.

Lemma half_inject (a b : Z) : (2 * a = b)%Z -> inject_Z a == inject_Z b / 2.
Proof.
  intros <-. rewrite inject_Z_mult. change (inject_Z 2) with 2. field.
Qed.

(** *** Centering *)

(** C3, as the specification states it, fails on the third default layer
    (100 panels on 9 columns): its last row holds a single panel, so the
    mean of the x coordinates is -0.1 and the mean of the y coordinates is
    1.1, neither of them 0. *)
Lemma centering_fails_on_partial_row :
  (0 < 100)%Z /\ (0 < 9)%Z /\
  In {| grayHintDegre := -8; prophecyCount := 100; zPos := -3;
        itemsPerRow := 9 |} layers /\
  mean (xs 9 100) == -0.1 /\ mean (ys 9 100) == 1.1 /\
  ~ mean (xs 9 100) == 0 /\ ~ mean (ys 9 100) == 0.
Proof.
  split; [reflexivity|]. split; [reflexivity|].
  split; [right; right; left; reflexivity|].
  repeat split; vm_compute; congruence.
Qed.

(** C3, amended: when the panels fill every row of the grid, that is when
    [columns] divides [prophecyCount], the mean of the x coordinates and the
    mean of the y coordinates of all placements are both 0. *)
Theorem centering_of_full_rows (columns prophecyCount : Z) :
  (0 < prophecyCount)%Z -> (0 < columns)%Z -> (columns | prophecyCount)%Z ->
  mean (xs columns prophecyCount) == 0 /\
  mean (ys columns prophecyCount) == 0.
Proof.
  intros Hn Hc [r ->].
  assert (Hr : (0 < r)%Z) by nia.
  rewrite <- (Z2Nat.id r) by lia.
  split; apply mean_zero.
  - unfold xs. rewrite sumQ_x, length_indices by nia.
    rewrite (half_inject _ _ (sum_col_full columns (Z.to_nat r) Hc)).
    unfold Z.sub. rewrite !inject_Z_mult, inject_Z_plus.
    change (inject_Z (- (1))) with (- (1)). unfold spacingX. field.
  - unfold ys. rewrite sumQ_y, length_indices, rows_multiple by nia.
    rewrite (half_inject _ _ (sum_row_full columns (Z.to_nat r) Hc)).
    unfold Z.sub. rewrite !inject_Z_mult, inject_Z_plus.
    change (inject_Z (- (1))) with (- (1)). unfold spacingY. field.
Qed.

Lemma centering_of_full_rows_witness :
  mean (xs 5 10) == 0 /\ mean (ys 5 10) == 0.
Proof.
  apply (centering_of_full_rows 5 10).
  - reflexivity.
  - reflexivity.
  - exists 2%Z. reflexivity.
Defined.

(** *** Coverage *)

Lemma cell_injective (columns i j : Z) :
  (0 < columns)%Z -> (0 <= i)%Z -> (0 <= j)%Z ->
  cell columns i = cell columns j -> i = j.
Proof.
  intros Hc Hi Hj Heq. injection Heq as Hrow Hcol.
  rewrite (index_of_cell columns i), (index_of_cell columns j) by assumption.
  congruence.
Qed.

Lemma placement_cell (columns prophecyCount i j : Z) :
  same_placement (placement columns prophecyCount i)
                 (placement columns prophecyCount j) ->
  cell columns i = cell columns j.
Proof.
  unfold same_placement, placement, cell, x, y, spacingX, spacingY.
  cbn [fst snd]. intros [Hx Hy]. f_equal; apply inject_Z_injective; lra.
Qed.

(** C7: on the grid of 100 panels and 9 columns there are
    [ceil(100/9) = 12] rows, two different indices of [0..99] never fall in
    the same (row, col) cell, and they never get the same (x, y)
    placement. *)
Theorem grid_coverage_100_9 (i j : Z) :
  In i (indices 100) -> In j (indices 100) -> i <> j ->
  rows 9 100 = 12%Z /\
  cell 9 i <> cell 9 j /\
  ~ same_placement (placement 9 100 i) (placement 9 100 j).
Proof.
  intros Hi Hj Hij. apply in_indices in Hi, Hj.
  split; [reflexivity|].
  assert (Hcell : cell 9 i <> cell 9 j).
  { intros H. apply Hij. apply (cell_injective 9); [reflexivity|lia|lia|exact H]. }
  split; [exact Hcell|].
  intros H. apply Hcell. apply (placement_cell 9 100). exact H.
Qed.

Lemma grid_coverage_100_9_witness :
  rows 9 100 = 12%Z /\
  cell 9 8 <> cell 9 99 /\
  ~ same_placement (placement 9 100 8) (placement 9 100 99).
Proof.
  apply (grid_coverage_100_9 8 99).
  - apply in_indices. lia.
  - apply in_indices. lia.
  - discriminate.
Defined.

(** *** The number of rows *)

Lemma rows_ceil (columns prophecyCount : Z) :
  rows columns prophecyCount = (- (- prophecyCount / columns))%Z.
Proof.
  unfold rows, Qceiling. f_equal. rewrite Zdiv_Qdiv. apply Qfloor_comp.
  rewrite inject_Z_opp. unfold Qdiv. ring.
Qed.

(** [rows] is the quotient of [prophecyCount] by [columns], and one more
    when the division leaves a remainder. *)
Lemma rows_cases (columns prophecyCount : Z) :
  (0 < columns)%Z ->
  rows columns prophecyCount
  = (if (prophecyCount mod columns =? 0)%Z
     then prophecyCount / columns
     else prophecyCount / columns + 1)%Z.
Proof.
  intros Hc. rewrite rows_ceil.
  destruct (Z.eqb_spec (prophecyCount mod columns) 0) as [E|E].
  - rewrite Z.div_opp_l_z by lia. lia.
  - rewrite Z.div_opp_l_nz by lia. lia.
Qed.

(** The rows are just enough for the panels: the last row is not empty
    and no panel is left over. *)
Lemma rows_enough (columns prophecyCount : Z) :
  (0 < columns)%Z ->
  ((rows columns prophecyCount - 1) * columns < prophecyCount
   <= rows columns prophecyCount * columns)%Z.
Proof.
  intros Hc. rewrite rows_cases by assumption.
  assert (Hdm : prophecyCount
                = (columns * (prophecyCount / columns)
                   + prophecyCount mod columns)%Z)
    by (apply Z.div_mod; lia).
  pose proof (Z.mod_pos_bound prophecyCount columns Hc) as Hm.
  destruct (Z.eqb_spec (prophecyCount mod columns) 0); nia.
Qed.

Lemma row_range (columns prophecyCount index : Z) :
  (0 < columns)%Z -> In index (indices prophecyCount) ->
  (0 <= row columns index < rows columns prophecyCount)%Z.
Proof.
  intros Hc Hi. apply in_indices in Hi.
  pose proof (rows_enough columns prophecyCount Hc) as Hr.
  rewrite row_div. split.
  - apply Z.div_pos; lia.
  - apply Z.div_lt_upper_bound; nia.
Qed.

Lemma col_range (columns index : Z) :
  (0 < columns)%Z -> (0 <= index)%Z ->
  (0 <= col columns index < columns)%Z.
Proof.
  intros Hc Hi. rewrite col_mod by assumption.
  apply Z.mod_pos_bound. assumption.
Qed.

(** Pushing [inject_Z] to the leaves. *)
Ltac push_inject :=
  unfold Z.sub;
  repeat (rewrite inject_Z_plus || rewrite inject_Z_mult
          || rewrite inject_Z_opp);
  change (inject_Z 1) with 1; change (inject_Z 2) with 2;
  change (inject_Z 0) with 0.

(** Halving as a product, which [lra] reads as linear, and the injected
    integers as unknowns. *)
Ltac halves := unfold Qdiv in *; change (/ 2) with (1 # 2) in *.

Ltac unknowns :=
  repeat match goal with
         | |- context [inject_Z ?z] =>
             let q := fresh "q" in set (q := inject_Z z) in *; clearbody q
         | H : context [inject_Z ?z] |- _ =>
             let q := fresh "q" in set (q := inject_Z z) in *; clearbody q
         end.

Lemma inject_Z_pred (a : Z) : inject_Z (a - 1) == inject_Z a - 1.
Proof. push_inject. ring. Qed.

(** X1: every panel of a layer with at least one column sits in a cell of
    the grid, its row below [rows] and its column below [columns], and so
    within half the width and half the height of the grid from the centre
    of the layer. *)
Theorem placement_within_grid (columns prophecyCount index : Z) :
  (0 < columns)%Z -> In index (indices prophecyCount) ->
  (0 <= row columns index < rows columns prophecyCount)%Z /\
  (0 <= col columns index < columns)%Z /\
  - ((inject_Z columns - 1) / 2 * spacingX) <= x columns index
    <= (inject_Z columns - 1) / 2 * spacingX /\
  - ((inject_Z (rows columns prophecyCount) - 1) / 2 * spacingY)
    <= y columns prophecyCount index
    <= (inject_Z (rows columns prophecyCount) - 1) / 2 * spacingY.
Proof.
  intros Hc Hi.
  pose proof (row_range columns prophecyCount index Hc Hi) as Hrow.
  assert (Hcol : (0 <= col columns index < columns)%Z).
  { apply col_range; [assumption|]. apply in_indices in Hi. lia. }
  split; [exact Hrow|]. split; [exact Hcol|].
  assert (Hc0 : 0 <= inject_Z (col columns index))
    by (rewrite <- (Zle_Qle 0); lia).
  assert (Hc1 : inject_Z (col columns index) <= inject_Z columns - 1)
    by (rewrite <- inject_Z_pred, <- Zle_Qle; lia).
  assert (Hr0 : 0 <= inject_Z (row columns index))
    by (rewrite <- (Zle_Qle 0); lia).
  assert (Hr1 : inject_Z (row columns index)
                <= inject_Z (rows columns prophecyCount) - 1)
    by (rewrite <- inject_Z_pred, <- Zle_Qle; lia).
  unfold x, y, spacingX, spacingY. repeat split; halves; lra.
Qed.

Lemma placement_within_grid_witness :
  (0 <= row 9 99 < rows 9 100)%Z /\
  (0 <= col 9 99 < 9)%Z /\
  - ((inject_Z 9 - 1) / 2 * spacingX) <= x 9 99
    <= (inject_Z 9 - 1) / 2 * spacingX /\
  - ((inject_Z (rows 9 100) - 1) / 2 * spacingY) <= y 9 100 99
    <= (inject_Z (rows 9 100) - 1) / 2 * spacingY.
Proof.
  apply (placement_within_grid 9 100 99).
  - reflexivity.
  - apply in_indices. lia.
Defined.

(** X2: whatever the number of columns (at least one) and of panels, two
    different indices never share a cell of the grid, nor a placement. *)
Theorem placements_distinct (columns prophecyCount i j : Z) :
  (0 < columns)%Z -> (0 <= i)%Z -> (0 <= j)%Z -> i <> j ->
  cell columns i <> cell columns j /\
  ~ same_placement (placement columns prophecyCount i)
                   (placement columns prophecyCount j).
Proof.
  intros Hc Hi Hj Hij.
  assert (Hcell : cell columns i <> cell columns j).
  { intros H. apply Hij. apply (cell_injective columns); assumption. }
  split; [exact Hcell|].
  intros H. apply Hcell. apply (placement_cell columns prophecyCount). exact H.
Qed.

Lemma placements_distinct_witness :
  cell 7 6 <> cell 7 7 /\
  ~ same_placement (placement 7 150 6) (placement 7 150 7).
Proof.
  apply (placements_distinct 7 150 6 7).
  - reflexivity.
  - discriminate.
  - discriminate.
  - discriminate.
Defined.

(** X3: the grid is centred as a box.  When the first row is full, its
    first and its last panel are at opposite x; the first and the last
    panel of the layer are at opposite y. *)
Theorem extent_is_centred (columns prophecyCount : Z) :
  (0 < columns)%Z -> (columns <= prophecyCount)%Z ->
  In 0%Z (indices prophecyCount) /\
  In (columns - 1)%Z (indices prophecyCount) /\
  In (prophecyCount - 1)%Z (indices prophecyCount) /\
  x columns 0 == - x columns (columns - 1) /\
  y columns prophecyCount 0 == - y columns prophecyCount (prophecyCount - 1).
Proof.
  intros Hc Hn. rewrite !in_indices.
  split; [lia|]. split; [lia|]. split; [lia|].
  pose proof (rows_enough columns prophecyCount Hc) as Hr.
  assert (Hlast : row columns (prophecyCount - 1)
                  = (rows columns prophecyCount - 1)%Z).
  { rewrite row_div. symmetry.
    apply (Z.div_unique _ _ _
             (prophecyCount - 1
              - columns * (rows columns prophecyCount - 1))); lia. }
  unfold x, y. rewrite Hlast, row_div, !col_mod by lia.
  rewrite Z.mod_0_l, Z.div_0_l, Z.mod_small by lia.
  rewrite !inject_Z_pred. change (inject_Z 0) with 0.
  split; field.
Qed.

Lemma extent_is_centred_witness :
  In 0%Z (indices 100) /\
  In (9 - 1)%Z (indices 100) /\
  In (100 - 1)%Z (indices 100) /\
  x 9 0 == - x 9 (9 - 1) /\
  y 9 100 0 == - y 9 100 (100 - 1).
Proof.
  apply (extent_is_centred 9 100).
  - reflexivity.
  - discriminate.
Defined.

(** X4: the index one row of [columns] further is at the same x and
    [spacingY] lower, for every index; the next index is [spacingX] to the
    right at the same height when the index is not the last of its row, and
    otherwise it starts the next row, [columns - 1] spacings to the left and
    [spacingY] lower. *)
Theorem neighbours (columns prophecyCount index : Z) :
  (0 < columns)%Z -> (0 <= index)%Z ->
  (x columns (index + columns) == x columns index /\
   y columns prophecyCount (index + columns)
   == y columns prophecyCount index - spacingY) /\
  ((col columns index < columns - 1)%Z ->
   x columns (index + 1) == x columns index + spacingX /\
   y columns prophecyCount (index + 1) == y columns prophecyCount index) /\
  (col columns index = (columns - 1)%Z ->
   x columns (index + 1)
   == x columns index - (inject_Z columns - 1) * spacingX /\
   y columns prophecyCount (index + 1)
   == y columns prophecyCount index - spacingY).
Proof.
  intros Hc Hi.
  pose proof (index_of_cell columns index Hi Hc) as Hidx.
  pose proof (col_range columns index Hc Hi) as Hrange.
  assert (Hrow : (0 <= row columns index)%Z)
    by (rewrite row_div; apply Z.div_pos; lia).
  split; [|split].
  - destruct (cell_block columns (row columns index + 1) (col columns index))
      as [Hr Hk]; [lia | lia |].
    replace ((row columns index + 1) * columns + col columns index)%Z
      with (index + columns)%Z in Hr, Hk by lia.
    unfold x, y. rewrite Hr, Hk, inject_Z_plus.
    change (inject_Z 1) with 1. unfold spacingY. split; field.
  - intros Hcol.
    destruct (cell_block columns (row columns index) (col columns index + 1))
      as [Hr Hk]; [lia | lia |].
    replace (row columns index * columns + (col columns index + 1))%Z
      with (index + 1)%Z in Hr, Hk by lia.
    unfold x, y. rewrite Hr, Hk, inject_Z_plus.
    change (inject_Z 1) with 1. unfold spacingX. split; field.
  - intros Hcol.
    destruct (cell_block columns (row columns index + 1) 0)
      as [Hr Hk]; [lia | lia |].
    replace ((row columns index + 1) * columns + 0)%Z
      with (index + 1)%Z in Hr, Hk by lia.
    unfold x, y. rewrite Hr, Hk, Hcol, inject_Z_plus, inject_Z_pred.
    change (inject_Z 1) with 1. change (inject_Z 0) with 0.
    unfold spacingX, spacingY. split; field.
Qed.

Lemma neighbours_witness :
  (x 9 (8 + 9) == x 9 8 /\
   y 9 100 (8 + 9) == y 9 100 8 - spacingY) /\
  (x 9 (12 + 1) == x 9 12 + spacingX /\
   y 9 100 (12 + 1) == y 9 100 12) /\
  (x 9 (8 + 1) == x 9 8 - (inject_Z 9 - 1) * spacingX /\
   y 9 100 (8 + 1) == y 9 100 8 - spacingY).
Proof.
  assert (Hc : (0 < 9)%Z) by reflexivity.
  assert (H8 : (0 <= 8)%Z) by discriminate.
  assert (H12 : (0 <= 12)%Z) by discriminate.
  split; [exact (proj1 (neighbours 9 100 8 Hc H8))|]. split.
  - apply (proj1 (proj2 (neighbours 9 100 12 Hc H12))). reflexivity.
  - apply (proj2 (proj2 (neighbours 9 100 8 Hc H8))). reflexivity.
Defined.

(** *** The means, whatever the last row *)

Lemma sum_col_prefix (columns r k : Z) :
  (0 <= r)%Z -> (0 <= k <= columns)%Z ->
  sumZ (map (col columns) (map (Z.add (r * columns)) (indices k)))
  = sumZ (indices k).
Proof.
  intros Hr Hk. rewrite map_map. f_equal.
  rewrite <- (map_id (indices k)) at 2.
  apply map_ext_in. intros j Hj. apply in_indices in Hj.
  apply cell_block; lia.
Qed.

Lemma sum_row_prefix (columns r k : Z) :
  (0 <= r)%Z -> (0 <= k <= columns)%Z ->
  sumZ (map (row columns) (map (Z.add (r * columns)) (indices k)))
  = (k * r)%Z.
Proof.
  intros Hr Hk. rewrite map_map.
  rewrite (map_ext_in _ (fun _ => r)).
  - rewrite sumZ_const, length_indices; lia.
  - intros j Hj. apply in_indices in Hj. apply cell_block; lia.
Qed.

(** The indices of a layer: those of its full rows, then those of the
    last, partial row. *)
Lemma indices_by_rows (columns prophecyCount : Z) :
  (0 < columns)%Z -> (0 <= prophecyCount)%Z ->
  indices prophecyCount
  = indices (prophecyCount / columns * columns)
    ++ map (Z.add (prophecyCount / columns * columns))
         (indices (prophecyCount mod columns)).
Proof.
  intros Hc Hn.
  pose proof (Z.mod_pos_bound prophecyCount columns Hc) as Hk.
  assert (Hr : (0 <= prophecyCount / columns)%Z) by (apply Z.div_pos; lia).
  rewrite <- indices_app by nia. f_equal.
  rewrite (Z.div_mod prophecyCount columns) at 1 by lia. lia.
Qed.

Lemma sum_col_all (columns prophecyCount : Z) :
  (0 < columns)%Z -> (0 <= prophecyCount)%Z ->
  (2 * sumZ (map (col columns) (indices prophecyCount))
   = prophecyCount / columns * (columns * (columns - 1))
     + prophecyCount mod columns * (prophecyCount mod columns - 1))%Z.
Proof.
  intros Hc Hn.
  pose proof (Z.mod_pos_bound prophecyCount columns Hc) as Hk.
  assert (Hr : (0 <= prophecyCount / columns)%Z) by (apply Z.div_pos; lia).
  rewrite (indices_by_rows columns prophecyCount) by assumption.
  rewrite map_app, sumZ_app, sum_col_prefix by lia.
  pose proof (sum_col_full columns (Z.to_nat (prophecyCount / columns)) Hc)
    as Hfull.
  pose proof (sumZ_indices (Z.to_nat (prophecyCount mod columns))) as Hlast.
  rewrite Z2Nat.id in Hfull, Hlast by lia. lia.
Qed.

Lemma sum_row_all (columns prophecyCount : Z) :
  (0 < columns)%Z -> (0 <= prophecyCount)%Z ->
  (2 * sumZ (map (row columns) (indices prophecyCount))
   = columns * (prophecyCount / columns * (prophecyCount / columns - 1))
     + 2 * (prophecyCount mod columns * (prophecyCount / columns)))%Z.
Proof.
  intros Hc Hn.
  pose proof (Z.mod_pos_bound prophecyCount columns Hc) as Hk.
  assert (Hr : (0 <= prophecyCount / columns)%Z) by (apply Z.div_pos; lia).
  rewrite (indices_by_rows columns prophecyCount) by assumption.
  rewrite map_app, sumZ_app, sum_row_prefix by lia.
  pose proof (sum_row_full columns (Z.to_nat (prophecyCount / columns)) Hc)
    as Hfull.
  rewrite Z2Nat.id in Hfull by lia. lia.
Qed.

(** The sum of the x coordinates of a layer: what the last row lacks on
    its right. *)
Lemma sumQ_xs (columns prophecyCount : Z) :
  (0 < columns)%Z -> (0 <= prophecyCount)%Z ->
  sumQ (xs columns prophecyCount)
  == inject_Z (prophecyCount mod columns
               * (prophecyCount mod columns - columns)) / 2 * spacingX.
Proof.
  intros Hc Hn. unfold xs. rewrite sumQ_x, length_indices by assumption.
  rewrite (half_inject _ _ (sum_col_all columns prophecyCount Hc Hn)).
  assert (Hdm : prophecyCount
                = (columns * (prophecyCount / columns)
                   + prophecyCount mod columns)%Z)
    by (apply Z.div_mod; lia).
  set (r := (prophecyCount / columns)%Z) in *.
  set (k := (prophecyCount mod columns)%Z) in *.
  clearbody r k. rewrite Hdm. push_inject. field.
Qed.

(** The sum of the y coordinates of a layer: what the last row lacks,
    weighed by the full rows above it. *)
Lemma sumQ_ys (columns prophecyCount : Z) :
  (0 < columns)%Z -> (0 <= prophecyCount)%Z ->
  sumQ (ys columns prophecyCount)
  == inject_Z (if (prophecyCount mod columns =? 0)%Z then 0
               else prophecyCount / columns
                    * (columns - prophecyCount mod columns)) / 2 * spacingY.
Proof.
  intros Hc Hn. unfold ys. rewrite sumQ_y, length_indices by assumption.
  rewrite (half_inject _ _ (sum_row_all columns prophecyCount Hc Hn)).
  rewrite rows_cases by assumption.
  assert (Hdm : prophecyCount
                = (columns * (prophecyCount / columns)
                   + prophecyCount mod columns)%Z)
    by (apply Z.div_mod; lia).
  set (r := (prophecyCount / columns)%Z) in *.
  set (k := (prophecyCount mod columns)%Z) in *.
  clearbody r k. rewrite Hdm.
  destruct (Z.eqb_spec k 0) as [E|E].
  - rewrite E. push_inject. field.
  - push_inject. field.
Qed.

Lemma mean_sum (l : list Q) :
  l <> [] -> sumQ l == mean l * inject_Z (Z.of_nat (length l)).
Proof.
  intros Hl. unfold mean. field.
  intros H. apply (inject_Z_injective _ 0) in H.
  destruct l; [contradiction | discriminate].
Qed.

Lemma mean_nonpos (l : list Q) : sumQ l <= 0 -> mean l <= 0.
Proof.
  intros H. destruct l as [|q l]; [discriminate|].
  unfold mean. apply Qle_shift_div_r.
  - rewrite <- (Zlt_Qlt 0). cbn [length]. lia.
  - rewrite Qmult_0_l. exact H.
Qed.

Lemma mean_nonneg (l : list Q) : 0 <= sumQ l -> 0 <= mean l.
Proof.
  intros H. destruct l as [|q l]; [discriminate|].
  unfold mean. apply Qle_shift_div_l.
  - rewrite <- (Zlt_Qlt 0). cbn [length]. lia.
  - rewrite Qmult_0_l. exact H.
Qed.

Lemma indices_not_nil (n : Z) : (0 < n)%Z -> indices n <> [].
Proof.
  intros Hn H. apply (f_equal (@length Z)) in H.
  apply (f_equal Z.of_nat) in H. rewrite length_indices in H by lia.
  cbn in H. lia.
Qed.

(** X5: the x coordinates of a layer add up to
    [k * (k - columns) / 2 * spacingX] for the number [k] of panels of a
    partial last row ([k = prophecyCount mod columns]); so their mean is
    never positive, and it is 0 exactly when [columns] divides
    [prophecyCount]. *)
Theorem mean_x_of_layer (columns prophecyCount : Z) :
  (0 < columns)%Z -> (0 < prophecyCount)%Z ->
  sumQ (xs columns prophecyCount)
  == inject_Z (prophecyCount mod columns
               * (prophecyCount mod columns - columns)) / 2 * spacingX /\
  mean (xs columns prophecyCount) <= 0 /\
  (mean (xs columns prophecyCount) == 0 <-> (columns | prophecyCount)%Z).
Proof.
  intros Hc Hn.
  assert (Hs := sumQ_xs columns prophecyCount Hc ltac:(apply Z.lt_le_incl; exact Hn)).
  pose proof (Z.mod_pos_bound prophecyCount columns Hc) as Hk.
  assert (Hneg : inject_Z (prophecyCount mod columns
                           * (prophecyCount mod columns - columns)) <= 0)
    by (rewrite <- (Zle_Qle _ 0); nia).
  assert (Hsum : sumQ (xs columns prophecyCount) <= 0)
    by (rewrite Hs; unfold spacingX in *; halves; unknowns; lra).
  split; [exact Hs|]. split; [apply mean_nonpos; exact Hsum|].
  rewrite <- Z.mod_divide by lia. split.
  - intros Hmean.
    assert (Hl : xs columns prophecyCount <> [])
      by (unfold xs; intros H; apply map_eq_nil in H;
          revert H; apply indices_not_nil; exact Hn).
    rewrite (mean_sum _ Hl), Hmean in Hs.
    assert (H0 : inject_Z (prophecyCount mod columns
                           * (prophecyCount mod columns - columns))
                 == inject_Z 0)
      by (change (inject_Z 0) with 0; unfold spacingX in Hs; halves;
          unknowns; lra).
    rewrite inject_Z_injective in H0. apply Z.eq_mul_0 in H0. lia.
  - intros Hmod. apply mean_zero. rewrite Hs, Hmod. reflexivity.
Qed.

Lemma mean_x_of_layer_witness :
  sumQ (xs 8 100) == inject_Z (100 mod 8 * (100 mod 8 - 8)) / 2 * spacingX /\
  mean (xs 8 100) <= 0 /\
  (mean (xs 8 100) == 0 <-> (8 | 100)%Z).
Proof.
  apply (mean_x_of_layer 8 100); reflexivity.
Defined.

(** X6: the y coordinates of a layer add up to
    [r * (columns - k) / 2 * spacingY] for [r] full rows above a partial
    last row of [k] panels, and to 0 without a partial row; so their mean
    is never negative, and it is 0 exactly when [columns] divides
    [prophecyCount] or the layer has a single, partial row. *)
Theorem mean_y_of_layer (columns prophecyCount : Z) :
  (0 < columns)%Z -> (0 < prophecyCount)%Z ->
  sumQ (ys columns prophecyCount)
  == inject_Z (if (prophecyCount mod columns =? 0)%Z then 0
               else prophecyCount / columns
                    * (columns - prophecyCount mod columns)) / 2 * spacingY /\
  0 <= mean (ys columns prophecyCount) /\
  (mean (ys columns prophecyCount) == 0
   <-> (columns | prophecyCount)%Z \/ (prophecyCount < columns)%Z).
Proof.
  intros Hc Hn.
  assert (Hs := sumQ_ys columns prophecyCount Hc ltac:(apply Z.lt_le_incl; exact Hn)).
  pose proof (Z.mod_pos_bound prophecyCount columns Hc) as Hk.
  assert (Hr : (0 <= prophecyCount / columns)%Z) by (apply Z.div_pos; lia).
  assert (Hsmall : (prophecyCount / columns = 0 <-> prophecyCount < columns)%Z).
  { split; intros H.
    - pose proof (Z.div_mod prophecyCount columns ltac:(lia)). nia.
    - apply Z.div_small. lia. }
  set (d := (if (prophecyCount mod columns =? 0)%Z then 0
             else prophecyCount / columns
                  * (columns - prophecyCount mod columns))%Z) in *.
  assert (Hd : (0 <= d)%Z)
    by (unfold d; destruct (Z.eqb_spec (prophecyCount mod columns) 0); nia).
  assert (Hpos : 0 <= inject_Z d) by (rewrite <- (Zle_Qle 0); exact Hd).
  assert (Hsum : 0 <= sumQ (ys columns prophecyCount))
    by (rewrite Hs; unfold spacingY in *; halves; unknowns; lra).
  split; [exact Hs|]. split; [apply mean_nonneg; exact Hsum|].
  rewrite <- Z.mod_divide by lia. split.
  - intros Hmean.
    assert (Hl : ys columns prophecyCount <> [])
      by (unfold ys; intros H; apply map_eq_nil in H;
          revert H; apply indices_not_nil; exact Hn).
    rewrite (mean_sum _ Hl), Hmean in Hs.
    assert (H0 : inject_Z d == inject_Z 0)
      by (change (inject_Z 0) with 0; unfold spacingY in Hs; halves;
          unknowns; lra).
    rewrite inject_Z_injective in H0. unfold d in H0.
    destruct (Z.eqb_spec (prophecyCount mod columns) 0); [left; assumption|].
    right. apply Hsmall. apply Z.eq_mul_0 in H0. lia.
  - intros Hcase. apply mean_zero. rewrite Hs.
    assert (Hd0 : d = 0%Z).
    { unfold d. destruct (Z.eqb_spec (prophecyCount mod columns) 0);
        [reflexivity|].
      destruct Hcase as [H|H]; [contradiction|].
      apply Hsmall in H. rewrite H. reflexivity. }
    rewrite Hd0. reflexivity.
Qed.

Lemma mean_y_of_layer_witness :
  sumQ (ys 8 100)
  == inject_Z (if (100 mod 8 =? 0)%Z then 0
               else 100 / 8 * (8 - 100 mod 8)) / 2 * spacingY /\
  0 <= mean (ys 8 100) /\
  (mean (ys 8 100) == 0 <-> (8 | 100)%Z \/ (100 < 8)%Z).
Proof.
  apply (mean_y_of_layer 8 100); reflexivity.
Defined.

(** *** The props of the panels *)

(** X7: every panel that a layer mounts asks for one of the pictures 1 to
    20, has the size 1.2 and the tint of its layer, and lies in the plane
    of its group; the pictures come round again every 20 panels. *)
Theorem children_props (layer : Layer) (child : ProphecyProps) :
  In child (children (group layer)) ->
  (1 <= imageIndex child <= 20)%Z /\
  size child = 1.2 /\
  grayHint child = grayHintDegre layer /\
  snd (position child) = 0 /\
  (forall index : Z,
     (0 <= index)%Z ->
     imageIndex (prophecy layer (index + 20))
     = imageIndex (prophecy layer index)).
Proof.
  intros Hin. unfold group in Hin. cbn [children] in Hin.
  apply in_map_iff in Hin. destruct Hin as (index & <- & Hi).
  apply in_indices in Hi. cbn [prophecy imageIndex size grayHint position snd].
  split.
  - rewrite Z.rem_mod_nonneg by lia.
    pose proof (Z.mod_pos_bound index 20 ltac:(lia)). lia.
  - repeat split. intros i Hi0.
    rewrite !Z.rem_mod_nonneg by lia.
    replace (i + 20)%Z with (i + 1 * 20)%Z by lia.
    rewrite Z.mod_add by lia. reflexivity.
Qed.

Lemma children_props_witness :
  (1 <= imageIndex (prophecy sevenColumns 39) <= 20)%Z /\
  size (prophecy sevenColumns 39) = 1.2 /\
  grayHint (prophecy sevenColumns 39) = grayHintDegre sevenColumns /\
  snd (position (prophecy sevenColumns 39)) = 0 /\
  (forall index : Z,
     (0 <= index)%Z ->
     imageIndex (prophecy sevenColumns (index + 20))
     = imageIndex (prophecy sevenColumns index)).
Proof.
  apply (children_props sevenColumns (prophecy sevenColumns 39)).
  unfold group. cbn [children]. apply in_map. apply in_indices.
  cbn. lia.
Defined.

End LayoutFacts.

(** ** Properties of a panel *)

Module PanelFacts.

Import Panel.
Local Open Scope R_scope.

(** *** The per-frame update, case by case *)

Section Frames.

Variable position : Vector3.
Variable grayHint : R.
Variables prophecyTexture oceanTexture : Texture.
Variable random : R.

Local Abbreviation frame := (onFrame position random).
Local Abbreviation session := (run position random).
Local Abbreviation count := (ticks position random).
Local Abbreviation start :=
  (mounted position grayHint prophecyTexture oceanTexture).

Lemma applied_true (delta : R) (st : State) :
  accumRef st + delta >= targetDelta -> applied delta st = true.
Proof. intros H. unfold applied. destruct Rge_dec; [reflexivity | contradiction]. Qed.

Lemma applied_false (delta : R) (st : State) :
  accumRef st + delta < targetDelta -> applied delta st = false.
Proof. intros H. unfold applied. destruct Rge_dec; [lra | reflexivity]. Qed.

Lemma onFrame_tick (delta : R) (st : State) :
  applied delta st = true ->
  frame delta st =
    {| accumRef := 0;
       timeRef := timeRef st + targetDelta;
       material :=
         set_uOffset (material st)
           {| v2x := v2x (uOffset (material st)) + targetDelta * 0.1;
              v2y := v2y (uOffset (material st)) - targetDelta * 0.1 |};
       meshRef :=
         option_map
           (fun mesh =>
              setY mesh
                (startY position
                 + sin ((timeRef st + targetDelta) * 4.0
                        + floatOffset random) * 0.1))
           (meshRef st) |}.
Proof.
  unfold applied, onFrame. destruct Rge_dec; [|discriminate].
  intros _. destruct (meshRef st); reflexivity.
Qed.

Lemma onFrame_skip (delta : R) (st : State) :
  applied delta st = false ->
  frame delta st =
    {| accumRef := accumRef st + delta;
       timeRef := timeRef st;
       material := material st;
       meshRef := meshRef st |}.
Proof.
  unfold applied, onFrame. destruct Rge_dec; [discriminate | reflexivity].
Qed.

Lemma ticks_cons (delta : R) (rest : list R) (st : State) :
  count (delta :: rest) st = (tick delta st + count rest (frame delta st))%nat.
Proof. reflexivity. Qed.

Lemma accumRef_frame (delta : R) (st : State) :
  accumRef (frame delta st) =
  if applied delta st then 0 else accumRef st + delta.
Proof.
  destruct (applied delta st) eqn:E;
    [rewrite onFrame_tick | rewrite onFrame_skip]; auto.
Qed.

Lemma timeRef_frame (delta : R) (st : State) :
  timeRef (frame delta st) = timeRef st + INR (tick delta st) * targetDelta.
Proof.
  unfold tick. destruct (applied delta st) eqn:E;
    [rewrite onFrame_tick | rewrite onFrame_skip]; auto; cbn; lra.
Qed.

Lemma uOffset_frame (delta : R) (st : State) :
  uOffset (material (frame delta st)) =
  if applied delta st
  then {| v2x := v2x (uOffset (material st)) + targetDelta * 0.1;
          v2y := v2y (uOffset (material st)) - targetDelta * 0.1 |}
  else uOffset (material st).
Proof.
  destruct (applied delta st) eqn:E;
    [rewrite onFrame_tick | rewrite onFrame_skip]; auto.
Qed.

Lemma positionY_frame (delta : R) (st : State) :
  positionY (frame delta st) =
  if applied delta st
  then option_map
         (fun _ => startY position
                   + sin ((timeRef st + targetDelta) * 4.0
                          + floatOffset random) * 0.1)
         (meshRef st)
  else positionY st.
Proof.
  destruct (applied delta st) eqn:E;
    [rewrite onFrame_tick | rewrite onFrame_skip]; auto.
  unfold positionY. cbn. destruct (meshRef st); reflexivity.
Qed.

(** *** Whole sessions *)

Lemma timeRef_session (deltas : list R) (st : State) :
  timeRef (session deltas st) =
  timeRef st + INR (count deltas st) * targetDelta.
Proof.
  revert st. induction deltas as [|delta rest IH]; intros st.
  - cbn. lra.
  - cbn [run]. rewrite IH, timeRef_frame, ticks_cons, plus_INR. lra.
Qed.

Lemma uOffset_session (deltas : list R) (st : State) :
  uOffset (material (session deltas st)) =
  {| v2x := v2x (uOffset (material st))
            + 0.1 * INR (count deltas st) * targetDelta;
     v2y := v2y (uOffset (material st))
            - 0.1 * INR (count deltas st) * targetDelta |}.
Proof.
  revert st. induction deltas as [|delta rest IH]; intros st.
  - cbn. destruct (uOffset (material st)). cbn. f_equal; lra.
  - cbn [run]. rewrite IH, uOffset_frame, ticks_cons, plus_INR.
    unfold tick. destruct (applied delta st); cbn; f_equal; lra.
Qed.

(** Every tick uses up at least [targetDelta] of the time that was
    accumulated, and what is left is never negative. *)
Lemma ticks_use_time (deltas : list R) (st : State) :
  Forall (fun delta => 0 <= delta) deltas -> 0 <= accumRef st ->
  0 <= accumRef (session deltas st) /\
  INR (count deltas st) * targetDelta + accumRef (session deltas st)
  <= accumRef st + sumR deltas.
Proof.
  intros Hpos. revert st.
  induction Hpos as [|delta rest Hd _ IH]; intros st Hacc.
  - cbn. lra.
  - cbn [run sumR fold_right]. rewrite ticks_cons, plus_INR.
    destruct (IH (frame delta st)) as [H0 Hle].
    + rewrite accumRef_frame. destruct (applied delta st); lra.
    + split; [exact H0|].
      fold (sumR rest). rewrite accumRef_frame in Hle.
      unfold tick. unfold applied in *.
      destruct Rge_dec; cbn [INR] in *; lra.
Qed.

Lemma ticks_at_most_frames (deltas : list R) (st : State) :
  (count deltas st <= length deltas)%nat.
Proof.
  revert st. induction deltas as [|delta rest IH]; intros st; [reflexivity|].
  rewrite ticks_cons. cbn [length]. specialize (IH (frame delta st)).
  unfold tick. destruct (applied delta st); lia.
Qed.

(** Frames that each last [targetDelta] or more all tick. *)
Lemma ticks_of_slow_frames (deltas : list R) (st : State) :
  Forall (fun delta => delta >= targetDelta) deltas -> 0 <= accumRef st ->
  count deltas st = length deltas.
Proof.
  intros Hslow. revert st.
  induction Hslow as [|delta rest Hd _ IH]; intros st Hacc; [reflexivity|].
  rewrite ticks_cons. cbn [length]. unfold tick.
  rewrite applied_true by lra. rewrite IH; [reflexivity|].
  rewrite accumRef_frame, applied_true by lra. lra.
Qed.

(** Being at most [floor(T / targetDelta)], for a number of ticks. *)
Lemma below_floor (n : nat) (total : R) :
  INR n * targetDelta <= total ->
  (Z.of_nat n <= Int_part (total / targetDelta))%Z.
Proof.
  intros H. unfold targetDelta in *.
  destruct (base_Int_part (total / (1 / 30))) as [_ Hup].
  rewrite INR_IZR_INZ in H.
  assert (Hlt : IZR (Z.of_nat n) < IZR (Int_part (total / (1 / 30)) + 1)).
  { rewrite plus_IZR.
    replace (total / (1 / 30)) with (total * 30) in * by field. lra. }
  apply lt_IZR in Hlt. lia.
Qed.

(** *** The claims on the per-frame update *)

(** C9: a frame after which the accumulated time is still below
    [targetDelta] applies no tick; it leaves [timeRef], the uniforms (the
    scroll offset among them) and the mesh with its position as they were,
    and only adds [delta] to the accumulator. *)
Theorem frame_below_threshold (delta : R) (st : State) :
  accumRef st + delta < targetDelta ->
  tick delta st = 0%nat /\
  accumRef (frame delta st) = accumRef st + delta /\
  timeRef (frame delta st) = timeRef st /\
  uOffset (material (frame delta st)) = uOffset (material st) /\
  material (frame delta st) = material st /\
  meshRef (frame delta st) = meshRef st /\
  positionY (frame delta st) = positionY st.
Proof.
  intros H. apply applied_false in H. unfold tick.
  rewrite onFrame_skip, H by exact H. cbn. repeat split; reflexivity.
Qed.

(** C10: one frame applies at most one tick however long it lasted:
    [timeRef] advances by that one tick or not at all, and a frame that
    ticks leaves the accumulator at exactly 0, whatever time it held beyond
    [targetDelta]. *)
Theorem one_tick_per_frame (delta : R) (st : State) :
  (count [delta] st <= 1)%nat /\
  count [delta] st = (if applied delta st then 1 else 0)%nat /\
  timeRef (frame delta st)
  = (if applied delta st then timeRef st + targetDelta else timeRef st) /\
  accumRef (frame delta st)
  = (if applied delta st then 0 else accumRef st + delta).
Proof.
  rewrite accumRef_frame, timeRef_frame. cbn [ticks]. unfold tick.
  destruct (applied delta st); cbn; repeat split; try lia; lra.
Qed.

(** C5: a tick adds [targetDelta * 0.1] to the x and takes it from the y of
    the scroll offset, a frame without a tick leaves it alone, and so, from
    the offset (0, 0) of a mounted panel, the offset after the frames
    [deltas] is [(0.1 * N * targetDelta, -0.1 * N * targetDelta)] for the
    number [N] of ticks applied. *)
Theorem scroll_offset_after_ticks (deltas : list R) :
  uOffset (material (session deltas start))
  = {| v2x := 0.1 * INR (count deltas start) * targetDelta;
       v2y := - (0.1 * INR (count deltas start) * targetDelta) |} /\
  (forall delta st,
     uOffset (material (frame delta st))
     = if applied delta st
       then {| v2x := v2x (uOffset (material st)) + targetDelta * 0.1;
               v2y := v2y (uOffset (material st)) - targetDelta * 0.1 |}
       else uOffset (material st)).
Proof.
  split; [|exact uOffset_frame].
  rewrite uOffset_session. cbn. f_equal; lra.
Qed.

(** *** The bob *)

(** The value that a tick at animation time [time] gives to the y
    coordinate is within 0.1 of [startY]. *)
Lemma newY_bounded (time : R) :
  startY position - 0.1
  <= startY position + sin (time * 4.0 + floatOffset random) * 0.1
  <= startY position + 0.1.
Proof.
  pose proof (SIN_bound (time * 4.0 + floatOffset random)). lra.
Qed.

(** The y coordinate of a mesh after a session is the one it had, or the
    one that the last tick assigned. *)
Lemma positionY_session (deltas : list R) (st : State) (mesh : Mesh) :
  meshRef st = Some mesh ->
  positionY (session deltas st)
  = Some (if (count deltas st =? 0)%nat
          then v3y (meshPosition mesh)
          else startY position
               + sin (timeRef (session deltas st) * 4.0
                      + floatOffset random) * 0.1).
Proof.
  revert st mesh. induction deltas as [|delta rest IH]; intros st mesh Hm.
  - cbn. unfold positionY. rewrite Hm. reflexivity.
  - cbn [run]. rewrite ticks_cons. unfold tick.
    destruct (applied delta st) eqn:E.
    + rewrite (IH (frame delta st) (setY mesh
               (startY position
                + sin ((timeRef st + targetDelta) * 4.0
                       + floatOffset random) * 0.1))).
      * destruct (count rest (frame delta st) =? 0)%nat eqn:E0; [|reflexivity].
        apply Nat.eqb_eq in E0. cbn [Nat.add Nat.eqb setY meshPosition v3y].
        rewrite timeRef_session, E0, onFrame_tick by exact E.
        cbn. do 3 f_equal. f_equal. lra.
      * rewrite onFrame_tick, Hm by exact E. reflexivity.
    + cbn [Nat.add]. apply IH.
      rewrite onFrame_skip by exact E. exact Hm.
Qed.

(** C6: the mesh of a mounted panel stays within 0.1 of [startY] whatever
    frames it went through; its y coordinate is [startY] until the first
    tick and afterwards the value
    [startY + sin(timeRef * 4.0 + floatOffset) * 0.1] of the last tick.
    Each tick assigns that value and adds nothing to the earlier one, and
    the value is within the bounds for every animation time. *)
Theorem bob_bounded (deltas : list R) :
  (exists newY,
     positionY (session deltas start) = Some newY /\
     startY position - 0.1 <= newY <= startY position + 0.1 /\
     newY = if (count deltas start =? 0)%nat
            then startY position
            else startY position
                 + sin (timeRef (session deltas start) * 4.0
                        + floatOffset random) * 0.1) /\
  (forall delta st,
     positionY (frame delta st)
     = if applied delta st
       then option_map
              (fun _ => startY position
                        + sin ((timeRef st + targetDelta) * 4.0
                               + floatOffset random) * 0.1)
              (meshRef st)
       else positionY st) /\
  (forall time,
     startY position - 0.1
     <= startY position + sin (time * 4.0 + floatOffset random) * 0.1
     <= startY position + 0.1).
Proof.
  split; [|split; [exact positionY_frame | exact newY_bounded]].
  eexists. split; [apply positionY_session; reflexivity|].
  split; [|reflexivity].
  cbn [meshPosition]. destruct (count deltas start =? 0)%nat.
  - unfold startY. lra.
  - apply newY_bounded.
Qed.

(** *** Ticks against elapsed time *)

(** C1, amended: over frames of non-negative deltas that add up to
    [10 * targetDelta], at most 10 ticks are applied, never more than there
    were frames, and [timeRef] ends at the number of ticks times
    [targetDelta]; ten frames of [targetDelta] each apply exactly 10 ticks
    and end at [10 * targetDelta]. *)
Theorem ticks_within_total (deltas : list R) :
  Forall (fun delta => 0 <= delta) deltas ->
  sumR deltas = 10 * targetDelta ->
  (count deltas start <= 10)%nat /\
  (count deltas start <= length deltas)%nat /\
  timeRef (session deltas start) = INR (count deltas start) * targetDelta /\
  count (repeat targetDelta 10) start = 10%nat /\
  timeRef (session (repeat targetDelta 10) start) = 10 * targetDelta.
Proof.
  intros Hpos Hsum.
  assert (Hten : count (repeat targetDelta 10) start = 10%nat).
  { rewrite ticks_of_slow_frames; [reflexivity| |cbn; lra].
    apply Forall_forall. intros d Hd. apply repeat_spec in Hd. lra. }
  split; [|split; [apply ticks_at_most_frames|]].
  - destruct (ticks_use_time deltas start Hpos) as [H0 Hle]; [cbn; lra|].
    apply INR_le. rewrite Hsum in Hle. change (accumRef start) with 0 in Hle.
    rewrite (INR_IZR_INZ 10). unfold targetDelta in *.
    cbn [Z.of_nat Pos.of_succ_nat Pos.succ]. lra.
  - rewrite !timeRef_session, Hten. cbn [timeRef mounted].
    rewrite (INR_IZR_INZ 10). cbn [Z.of_nat Pos.of_succ_nat Pos.succ].
    repeat split; lra.
Qed.

(** C2, amended: a frame after which the accumulated time reaches
    [targetDelta] applies one tick and leaves the accumulator at 0, the time
    beyond [targetDelta] being dropped; so the ticks applied over frames of
    non-negative deltas of total [T] number at most
    [floor(T / targetDelta)]. *)
Theorem tick_resets_accumulator (delta : R) (st : State) (deltas : list R) :
  accumRef st + delta >= targetDelta ->
  Forall (fun delta => 0 <= delta) deltas ->
  (tick delta st = 1%nat /\
   timeRef (frame delta st) = timeRef st + targetDelta /\
   accumRef (frame delta st) = 0) /\
  (Z.of_nat (count deltas start) <= Int_part (sumR deltas / targetDelta))%Z.
Proof.
  intros Hge Hpos. split.
  - apply applied_true in Hge. unfold tick.
    rewrite onFrame_tick, Hge by exact Hge. cbn. repeat split; reflexivity.
  - apply below_floor.
    destruct (ticks_use_time deltas start Hpos) as [H0 Hle]; [cbn; lra|].
    change (accumRef start) with 0 in Hle. lra.
Qed.

End Frames.

(** A panel of the grid bobs around the y coordinate that the grid gave
    it. *)
Corollary bob_of_grid_panel (props : Layout.ProphecyProps)
    (prophecyTexture oceanTexture : Texture) (random : R) (deltas : list R) :
  exists newY,
    positionY (run (positionOf props) random deltas
                 (mount props prophecyTexture oceanTexture)) = Some newY /\
    Q2R (snd (fst (Layout.position props))) - 0.1
    <= newY <= Q2R (snd (fst (Layout.position props))) + 0.1.
Proof.
  eexists. split; [apply positionY_session; reflexivity|].
  cbn [meshPosition]. pose proof (newY_bounded (positionOf props) random) as Hb.
  unfold positionOf, startY in *.
  destruct (Layout.position props) as [[x y] z]. cbn [fst snd v3y] in *.
  destruct (_ =? _)%nat; [lra | apply Hb].
Qed.

(** *** The claims at the sample panel *)

Lemma frame_below_threshold_witness :
  accumRef sample + 0.01 < targetDelta /\
  tick 0.01 sample = 0%nat /\
  accumRef (onFrame origin 0 0.01 sample) = accumRef sample + 0.01 /\
  timeRef (onFrame origin 0 0.01 sample) = timeRef sample /\
  uOffset (material (onFrame origin 0 0.01 sample))
  = uOffset (material sample) /\
  material (onFrame origin 0 0.01 sample) = material sample /\
  meshRef (onFrame origin 0 0.01 sample) = meshRef sample /\
  positionY (onFrame origin 0 0.01 sample) = positionY sample.
Proof.
  assert (H : accumRef sample + 0.01 < targetDelta)
    by (cbn; unfold targetDelta; lra).
  split; [exact H | exact (frame_below_threshold origin 0 0.01 sample H)].
Defined.

(** A frame that comes after an hour still applies a single tick. *)
Example one_tick_after_an_hour :
  ticks origin 0 [3600] sample = 1%nat /\
  timeRef (onFrame origin 0 3600 sample) = targetDelta /\
  accumRef (onFrame origin 0 3600 sample) = 0.
Proof.
  assert (H : applied 3600 sample = true)
    by (apply applied_true; cbn; unfold targetDelta; lra).
  cbn [ticks]. unfold tick. rewrite onFrame_tick, H by exact H.
  cbn. repeat split; lra.
Qed.

Lemma ten_frames_of_targetDelta (st : State) :
  accumRef st = 0 -> ticks origin 0 (repeat targetDelta 10) st = 10%nat.
Proof.
  intros H. rewrite ticks_of_slow_frames; [reflexivity| |lra].
  apply Forall_forall. intros d Hd. apply repeat_spec in Hd. lra.
Qed.

(** C1, as the specification states it, fails on a single frame of
    [10 * targetDelta]: the delta is not negative and the total is
    [10 * targetDelta], yet one tick is applied, not 10, [timeRef] ends at
    [targetDelta], and the final state is not the one that ten frames of
    [targetDelta] lead to. *)
Lemma determinism_fails_on_one_long_frame :
  Forall (fun delta => 0 <= delta) [10 * targetDelta] /\
  sumR [10 * targetDelta] = 10 * targetDelta /\
  ticks origin 0 [10 * targetDelta] sample = 1%nat /\
  ticks origin 0 [10 * targetDelta] sample <> 10%nat /\
  timeRef (run origin 0 [10 * targetDelta] sample) = targetDelta /\
  timeRef (run origin 0 [10 * targetDelta] sample) <> 10 * targetDelta /\
  run origin 0 [10 * targetDelta] sample
  <> run origin 0 (repeat targetDelta 10) sample.
Proof.
  assert (H : applied (10 * targetDelta) sample = true)
    by (apply applied_true; cbn; unfold targetDelta; lra).
  assert (Hn : ticks origin 0 [10 * targetDelta] sample = 1%nat)
    by (cbn [ticks]; unfold tick; rewrite H; reflexivity).
  assert (Ht : timeRef (run origin 0 [10 * targetDelta] sample) = targetDelta)
    by (rewrite timeRef_session, Hn; cbn; lra).
  split; [repeat constructor; unfold targetDelta; lra|].
  split; [cbn; lra|].
  split; [exact Hn|]. split; [rewrite Hn; discriminate|].
  split; [exact Ht|]. split; [rewrite Ht; unfold targetDelta; lra|].
  intros Heq. apply (f_equal timeRef) in Heq.
  rewrite Ht, timeRef_session, ten_frames_of_targetDelta in Heq by reflexivity.
  rewrite (INR_IZR_INZ 10) in Heq. cbn in Heq. unfold targetDelta in Heq. lra.
Qed.

Lemma ticks_within_total_witness :
  Forall (fun delta => 0 <= delta) uneven /\
  sumR uneven = 10 * targetDelta /\
  (ticks origin 0 uneven sample <= 10)%nat /\
  (ticks origin 0 uneven sample <= length uneven)%nat /\
  timeRef (run origin 0 uneven sample)
  = INR (ticks origin 0 uneven sample) * targetDelta /\
  ticks origin 0 (repeat targetDelta 10) sample = 10%nat /\
  timeRef (run origin 0 (repeat targetDelta 10) sample) = 10 * targetDelta.
Proof.
  assert (Hpos : Forall (fun delta => 0 <= delta) uneven)
    by (repeat constructor; unfold targetDelta; lra).
  assert (Hsum : sumR uneven = 10 * targetDelta) by (cbn; lra).
  split; [exact Hpos|]. split; [exact Hsum|].
  exact (ticks_within_total origin 1 loading loading 0 uneven Hpos Hsum).
Defined.

(** C2, as the specification states it, fails on a first frame of
    [3 * targetDelta]: the accumulator reaches [targetDelta] and is left at
    0, not at the [2 * targetDelta] that taking [targetDelta] away would
    leave, and the frame applies one tick where [T / targetDelta] is 3. *)
Lemma leftover_is_dropped :
  accumRef sample + 3 * targetDelta >= targetDelta /\
  accumRef (onFrame origin 0 (3 * targetDelta) sample) = 0 /\
  accumRef (onFrame origin 0 (3 * targetDelta) sample)
  <> accumRef sample + 3 * targetDelta - targetDelta /\
  ticks origin 0 [3 * targetDelta] sample = 1%nat /\
  Int_part (sumR [3 * targetDelta] / targetDelta) = 3%Z /\
  (Int_part (sumR [3 * targetDelta] / targetDelta)%R
   - Z.of_nat (ticks origin 0 [3 * targetDelta]%R sample) > 1)%Z.
Proof.
  assert (Hge : accumRef sample + 3 * targetDelta >= targetDelta)
    by (cbn; unfold targetDelta; lra).
  assert (H : applied (3 * targetDelta) sample = true)
    by (apply applied_true; exact Hge).
  split; [exact Hge|]. rewrite accumRef_frame, H.
  split; [reflexivity|]. split; [cbn; unfold targetDelta; lra|].
  assert (Hn : ticks origin 0 [3 * targetDelta] sample = 1%nat)
    by (cbn [ticks]; unfold tick; rewrite H; reflexivity).
  assert (Hfloor : Int_part (sumR [3 * targetDelta] / targetDelta) = 3%Z).
  { symmetry. apply Int_part_spec. cbn. unfold targetDelta.
    replace ((3 * (1 / 30) + 0) / (1 / 30)) with 3 by field. lra. }
  split; [exact Hn|]. split; [exact Hfloor|].
  rewrite Hfloor, Hn. reflexivity.
Qed.

Lemma tick_resets_accumulator_witness :
  accumRef sample + 0.05 >= targetDelta /\
  Forall (fun delta => 0 <= delta) mixed /\
  (tick 0.05 sample = 1%nat /\
   timeRef (onFrame origin 0 0.05 sample) = timeRef sample + targetDelta /\
   accumRef (onFrame origin 0 0.05 sample) = 0) /\
  (Z.of_nat (ticks origin 0 mixed sample)
   <= Int_part (sumR mixed / targetDelta))%Z.
Proof.
  assert (Hge : accumRef sample + 0.05 >= targetDelta)
    by (cbn; unfold targetDelta; lra).
  assert (Hpos : Forall (fun delta => 0 <= delta) mixed)
    by (repeat constructor; lra).
  split; [exact Hge|]. split; [exact Hpos|].
  exact (tick_resets_accumulator origin 1 loading loading 0
           0.05 sample mixed Hge Hpos).
Defined.

(** *** The fragment shader *)

(** C4: a fragment whose panel texel has alpha 0.5 or more is discarded;
    any other fragment gets the colour of the ocean texel at
    [vUv + uOffset], that is at the coordinate
    [(vUv.x + uOffset.x, vUv.y + uOffset.y)], plus (0, 0.1, 0.6), plus
    [0.1 * uGrayHint] on every channel, and the alpha of that ocean
    texel. *)
Theorem cutout_rule (texture2D : Texture -> Vector2 -> vec4)
    (u : Uniforms) (vUv : Vector2) :
  (alpha (texture2D (uProphecy u) vUv) >= 0.5 ->
   fragmentShader texture2D u vUv = None) /\
  (alpha (texture2D (uProphecy u) vUv) < 0.5 ->
   fragmentShader texture2D u vUv =
   Some
     {| rgb :=
          {| c_r := c_r (rgb (texture2D (uOcean u)
                                {| v2x := v2x vUv + v2x (uOffset u);
                                   v2y := v2y vUv + v2y (uOffset u) |}))
                    + 0 + 0.1 * uGrayHint u;
             c_g := c_g (rgb (texture2D (uOcean u)
                                {| v2x := v2x vUv + v2x (uOffset u);
                                   v2y := v2y vUv + v2y (uOffset u) |}))
                    + 0.1 + 0.1 * uGrayHint u;
             c_b := c_b (rgb (texture2D (uOcean u)
                                {| v2x := v2x vUv + v2x (uOffset u);
                                   v2y := v2y vUv + v2y (uOffset u) |}))
                    + 0.6 + 0.1 * uGrayHint u |};
        alpha := alpha (texture2D (uOcean u)
                          {| v2x := v2x vUv + v2x (uOffset u);
                             v2y := v2y vUv + v2y (uOffset u) |}) |}).
Proof.
  unfold fragmentShader, v2add. split; intros H; destruct Rlt_dec; try lra.
  - reflexivity.
  - unfold vec3add, vec3s. cbn. do 2 f_equal. f_equal; lra.
Qed.

(** At a scroll offset of (0.25, -0.25) the sampler [ramp] shows where the
    ocean was read: the alpha drawn at [vUv.x = 0.49] is that of the place
    [0.49 + 0.25]. *)
Lemma cutout_rule_witness :
  (alpha (ramp (uProphecy scrolled) {| v2x := 0.5; v2y := 0 |}) >= 0.5 /\
   fragmentShader ramp scrolled {| v2x := 0.5; v2y := 0 |} = None) /\
  (alpha (ramp (uProphecy scrolled) {| v2x := 0.49; v2y := 0 |}) < 0.5 /\
   fragmentShader ramp scrolled {| v2x := 0.49; v2y := 0 |} =
   Some
     {| rgb := {| c_r := 0.2 + 0 + 0.1 * 1;
                  c_g := 0.3 + 0.1 + 0.1 * 1;
                  c_b := 0.4 + 0.6 + 0.1 * 1 |};
        alpha := 0.49 + 0.25 |}).
Proof.
  assert (Hhigh : alpha (ramp (uProphecy scrolled) {| v2x := 0.5; v2y := 0 |})
                  >= 0.5)
    by (cbn; lra).
  assert (Hlow : alpha (ramp (uProphecy scrolled) {| v2x := 0.49; v2y := 0 |})
                 < 0.5)
    by (cbn; lra).
  split.
  - split; [exact Hhigh|].
    exact (proj1 (cutout_rule ramp scrolled _) Hhigh).
  - split; [exact Hlow|].
    exact (proj2 (cutout_rule ramp scrolled _) Hlow).
Defined.

(** The four alphas 0.9, 0.3, 0.5 and 0.49: the first and the third
    fragments are discarded, the second and the fourth are drawn. *)
Example cutout_of_four_texels :
  map (fun a => match fragmentShader ramp (material sample)
                        {| v2x := a; v2y := 0 |} with
                | Some _ => true
                | None => false
                end) [0.9; 0.3; 0.5; 0.49]
  = [false; true; false; true].
Proof.
  unfold fragmentShader. cbn [map ramp alpha v2x].
  repeat (destruct Rlt_dec; try lra). reflexivity.
Qed.

(** *** Aspect ratio *)

(** C8: a texture without image gives the aspect ratio 1, and a plane of
    [size] by [size]; a texture with an image gives
    [width / height]; in both cases the panel gets a plane of
    [aspectRatio * size] by [size] (the functions are total: nothing
    fails). *)
Theorem aspect_ratio_fallback (size : R) :
  aspectRatio {| image := None |} = 1 /\
  planeGeometry {| image := None |} size = (size, size) /\
  (forall img : Image,
     aspectRatio {| image := Some img |}
     = IZR (width img) / IZR (height img)) /\
  (forall prophecyTexture : Texture,
     planeGeometry prophecyTexture size
     = (aspectRatio prophecyTexture * size, size)).
Proof.
  unfold planeGeometry, aspectRatio. cbn.
  repeat split. f_equal. lra.
Qed.

(** A picture of 400 by 300 pixels on a panel of size 1.2. *)
Example aspect_of_400_by_300 :
  planeGeometry {| image := Some {| width := 400; height := 300 |} |} 1.2
  = (1.6, 1.2).
Proof.
  unfold planeGeometry, aspectRatio. cbn. f_equal. lra.
Qed.

(** *** More on sessions *)

Section Sessions.

Variable position : Vector3.
Variable grayHint : R.
Variables prophecyTexture oceanTexture : Texture.
Variable random : R.

Local Abbreviation frame := (onFrame position random).
Local Abbreviation session := (run position random).
Local Abbreviation count := (ticks position random).
Local Abbreviation start :=
  (mounted position grayHint prophecyTexture oceanTexture).

Lemma run_app (l1 l2 : list R) (st : State) :
  session (l1 ++ l2) st = session l2 (session l1 st).
Proof.
  revert st. induction l1 as [|delta l1 IH]; intros st; [reflexivity|].
  cbn [app run]. apply IH.
Qed.

Lemma ticks_app (l1 l2 : list R) (st : State) :
  count (l1 ++ l2) st = (count l1 st + count l2 (session l1 st))%nat.
Proof.
  revert st. induction l1 as [|delta l1 IH]; intros st; [reflexivity|].
  cbn [app run ticks]. rewrite IH. lia.
Qed.

(** After a frame the accumulator is below [targetDelta], whatever the
    frame. *)
Lemma accumRef_below (delta : R) (st : State) :
  accumRef (frame delta st) < targetDelta.
Proof.
  rewrite (accumRef_frame position random). unfold applied.
  destruct Rge_dec; unfold targetDelta in *; lra.
Qed.

Lemma accumRef_range (deltas : list R) (st : State) :
  Forall (fun delta => 0 <= delta) deltas ->
  0 <= accumRef st < targetDelta ->
  0 <= accumRef (session deltas st) < targetDelta.
Proof.
  intros Hpos. revert st.
  induction Hpos as [|delta rest Hd _ IH]; intros st Hacc; [exact Hacc|].
  cbn [run]. apply IH. split; [|apply accumRef_below].
  rewrite (accumRef_frame position random).
  destruct (applied delta st); lra.
Qed.

(** X8: over frames of non-negative deltas the accumulator of a mounted
    panel is never negative and always below [targetDelta]: no tick is
    ever pending between two frames. *)
Theorem accumulator_in_range (deltas : list R) :
  Forall (fun delta => 0 <= delta) deltas ->
  0 <= accumRef (session deltas start) < targetDelta.
Proof.
  intros Hpos. apply accumRef_range; [exact Hpos|].
  cbn. unfold targetDelta. lra.
Qed.

(** The session touches no uniform but [uOffset]. *)
Lemma material_session (deltas : list R) (st : State) :
  material (session deltas st)
  = set_uOffset (material st) (uOffset (material (session deltas st))).
Proof.
  revert st. induction deltas as [|delta rest IH]; intros st.
  - cbn. destruct (material st). reflexivity.
  - cbn [run]. rewrite IH. destruct (applied delta st) eqn:E;
      [rewrite (onFrame_tick position random) by exact E
      |rewrite (onFrame_skip position random) by exact E]; reflexivity.
Qed.

(** The session moves the mesh along y only, when there is a mesh. *)
Lemma mesh_session (deltas : list R) (st : State) :
  option_map (fun mesh => (v3x (meshPosition mesh), v3z (meshPosition mesh)))
    (meshRef (session deltas st))
  = option_map (fun mesh => (v3x (meshPosition mesh), v3z (meshPosition mesh)))
      (meshRef st).
Proof.
  revert st. induction deltas as [|delta rest IH]; intros st; [reflexivity|].
  cbn [run]. rewrite IH. destruct (applied delta st) eqn:E;
    [rewrite (onFrame_tick position random) by exact E
    |rewrite (onFrame_skip position random) by exact E];
    cbn [meshRef]; destruct (meshRef st); reflexivity.
Qed.

(** X9: a session changes [uOffset] and nothing else of the material (the
    two textures and [uGrayHint] stay), it moves the mesh along y only, and
    it never gives a mesh to a panel whose [meshRef] is [null]. *)
Theorem session_changes_only (deltas : list R) (st : State) :
  uProphecy (material (session deltas st)) = uProphecy (material st) /\
  uOcean (material (session deltas st)) = uOcean (material st) /\
  uGrayHint (material (session deltas st)) = uGrayHint (material st) /\
  option_map (fun mesh => (v3x (meshPosition mesh), v3z (meshPosition mesh)))
    (meshRef (session deltas st))
  = option_map (fun mesh => (v3x (meshPosition mesh), v3z (meshPosition mesh)))
      (meshRef st).
Proof.
  rewrite material_session. repeat split. apply mesh_session.
Qed.

(** X10: the cutout of a panel does not move: whether the fragment at
    [vUv] is drawn or discarded is the same after any session as before
    it. *)
Theorem cutout_is_still (texture2D : Texture -> Vector2 -> vec4)
    (deltas : list R) (st : State) (vUv : Vector2) :
  option_map (fun _ => tt)
    (fragmentShader texture2D (material (session deltas st)) vUv)
  = option_map (fun _ => tt) (fragmentShader texture2D (material st) vUv).
Proof.
  rewrite material_session. unfold fragmentShader, set_uOffset.
  cbn [uProphecy]. destruct Rlt_dec; reflexivity.
Qed.

(** What the ticks of a session used up, when no frame is longer than
    [targetDelta]: less than [2 * targetDelta] each. *)
Lemma ticks_use_little (deltas : list R) (st : State) :
  Forall (fun delta => 0 <= delta <= targetDelta) deltas ->
  0 <= accumRef st < targetDelta ->
  accumRef st + sumR deltas
  <= INR (count deltas st) * (2 * targetDelta)
     + accumRef (session deltas st).
Proof.
  intros Hfast. revert st.
  induction Hfast as [|delta rest Hd _ IH]; intros st Hacc.
  - cbn. lra.
  - cbn [run sumR fold_right]. fold (sumR rest).
    rewrite (ticks_cons position random), plus_INR.
    assert (Hnext : 0 <= accumRef (frame delta st) < targetDelta).
    { split; [|apply accumRef_below].
      rewrite (accumRef_frame position random).
      destruct (applied delta st); lra. }
    specialize (IH (frame delta st) Hnext).
    rewrite (accumRef_frame position random) in IH.
    unfold tick. destruct (applied delta st); cbn [INR] in *; lra.
Qed.

(** X11: when no frame lasts longer than [targetDelta] (30 frames per
    second or more), the ticks of a mounted panel cover the elapsed time
    [T] at half speed at least: [N * targetDelta <= T] and
    [T < (2 * N + 1) * targetDelta] for the number [N] of ticks. *)
Theorem ticks_at_half_speed (deltas : list R) :
  Forall (fun delta => 0 <= delta <= targetDelta) deltas ->
  INR (count deltas start) * targetDelta <= sumR deltas /\
  sumR deltas < (2 * INR (count deltas start) + 1) * targetDelta.
Proof.
  intros Hfast.
  assert (Hpos : Forall (fun delta => 0 <= delta) deltas).
  { apply Forall_forall. intros d Hd.
    apply (proj1 (Forall_forall _ _) Hfast) in Hd. lra. }
  assert (H0 : 0 <= accumRef start < targetDelta)
    by (cbn; unfold targetDelta; lra).
  pose proof (ticks_use_time position random deltas start Hpos (proj1 H0))
    as [_ Hup].
  pose proof (ticks_use_little deltas start Hfast H0) as Hlow.
  pose proof (accumRef_range deltas start Hpos H0) as Hacc.
  change (accumRef start) with 0 in *. split; lra.
Qed.

(** Frames of one and the same duration: the first [k] leave the
    accumulator below [targetDelta], the next one ticks. *)
Lemma ticks_of_one_cycle (delta : R) (k m j : nat) (st : State) :
  0 <= delta ->
  INR k * delta < targetDelta <= INR (S k) * delta ->
  (j + S m = S k)%nat ->
  accumRef st = INR j * delta ->
  count (repeat delta (S m)) st = 1%nat /\
  accumRef (session (repeat delta (S m)) st) = 0.
Proof.
  intros Hd [Hlow Hhigh]. revert j st.
  induction m as [|m IH]; intros j st Hj Hacc.
  - assert (E : applied delta st = true).
    { apply applied_true. rewrite Hacc.
      replace j with k by lia. rewrite S_INR in Hhigh. lra. }
    cbn [repeat run ticks]. unfold tick.
    rewrite (accumRef_frame position random), E. split; reflexivity.
  - assert (E : applied delta st = false).
    { apply applied_false. rewrite Hacc.
      assert (Hle : INR (S j) <= INR k) by (apply le_INR; lia).
      rewrite S_INR in Hle. nra. }
    change (repeat delta (S (S m))) with (delta :: repeat delta (S m)).
    cbn [run]. rewrite (ticks_cons position random). unfold tick. rewrite E.
    apply (IH (S j)); [lia|].
    rewrite (accumRef_frame position random), E, Hacc, S_INR. lra.
Qed.

(** X12: at a steady frame rate, with frames of [delta] seconds of which
    [k] stay below [targetDelta] and [k + 1] reach it, a mounted panel
    ticks once every [k + 1] frames: [n] ticks over [(k + 1) * n] frames,
    however much the [k + 1] frames exceed [targetDelta]. *)
Theorem ticks_at_steady_rate (delta : R) (k n : nat) :
  0 <= delta ->
  INR k * delta < targetDelta <= INR (S k) * delta ->
  count (repeat delta (S k * n)) start = n /\
  timeRef (session (repeat delta (S k * n)) start) = INR n * targetDelta /\
  accumRef (session (repeat delta (S k * n)) start) = 0.
Proof.
  intros Hd Hk.
  assert (H : forall st, accumRef st = 0 ->
              count (repeat delta (S k * n)) st = n /\
              accumRef (session (repeat delta (S k * n)) st) = 0).
  { induction n as [|n IH]; intros st Hacc.
    - rewrite Nat.mul_0_r. split; [reflexivity | exact Hacc].
    - replace (S k * S n)%nat with (S k + S k * n)%nat by lia.
      rewrite repeat_app, ticks_app, run_app.
      destruct (ticks_of_one_cycle delta k k 0 st Hd Hk) as [H1 H0];
        [lia | rewrite Hacc; cbn; lra |].
      destruct (IH (session (repeat delta (S k)) st) H0) as [Hn Hz].
      rewrite H1, Hn. split; [reflexivity | exact Hz]. }
  destruct (H start eq_refl) as [Hn Hz].
  rewrite (timeRef_session position random), Hn.
  split; [reflexivity|]. split; [cbn; lra | exact Hz].
Qed.

(** X13: the scroll offset of a mounted panel follows its animation time,
    [uOffset = (0.1 * timeRef, -0.1 * timeRef)], and the animation time
    never runs backwards. *)
Theorem offset_follows_time (deltas : list R) :
  uOffset (material (session deltas start))
  = {| v2x := 0.1 * timeRef (session deltas start);
       v2y := - (0.1 * timeRef (session deltas start)) |} /\
  (forall st : State, timeRef st <= timeRef (session deltas st)).
Proof.
  split.
  - rewrite (uOffset_session position random),
      (timeRef_session position random). cbn. f_equal; lra.
  - intros st. rewrite (timeRef_session position random).
    pose proof (pos_INR (count deltas st)). unfold targetDelta. nra.
Qed.

End Sessions.

Lemma accumulator_in_range_witness :
  Forall (fun delta => 0 <= delta) mixed /\
  0 <= accumRef (run origin 0 mixed sample) < targetDelta.
Proof.
  assert (Hpos : Forall (fun delta => 0 <= delta) mixed)
    by (repeat constructor; lra).
  split; [exact Hpos|].
  exact (accumulator_in_range origin 1 loading loading 0 mixed Hpos).
Defined.

Lemma ticks_at_half_speed_witness :
  Forall (fun delta => 0 <= delta <= targetDelta) [0.02; 0.02; 0.03] /\
  INR (ticks origin 0 [0.02; 0.02; 0.03] sample) * targetDelta
  <= sumR [0.02; 0.02; 0.03] /\
  sumR [0.02; 0.02; 0.03]
  < (2 * INR (ticks origin 0 [0.02; 0.02; 0.03] sample) + 1) * targetDelta.
Proof.
  assert (Hfast : Forall (fun delta => 0 <= delta <= targetDelta)
                    [0.02; 0.02; 0.03])
    by (repeat constructor; unfold targetDelta; lra).
  split; [exact Hfast|].
  exact (ticks_at_half_speed origin 1 loading loading 0 _ Hfast).
Defined.

(** At 144 frames per second a panel ticks every fifth frame, 28.8 times
    a second. *)
Lemma ticks_at_steady_rate_witness :
  0 <= 1 / 144 /\
  INR 4 * (1 / 144) < targetDelta <= INR 5 * (1 / 144) /\
  ticks origin 0 (repeat (1 / 144) (5 * 144)) sample = 144%nat /\
  timeRef (run origin 0 (repeat (1 / 144) (5 * 144)) sample)
  = INR 144 * targetDelta /\
  accumRef (run origin 0 (repeat (1 / 144) (5 * 144)) sample) = 0.
Proof.
  assert (Hd : 0 <= 1 / 144) by lra.
  assert (Hk : INR 4 * (1 / 144) < targetDelta <= INR 5 * (1 / 144))
    by (unfold targetDelta; cbn [INR]; lra).
  split; [exact Hd|]. split; [exact Hk|].
  exact (ticks_at_steady_rate origin 1 loading loading 0 (1 / 144) 4 144
           Hd Hk).
Defined.

(** *** Panels side by side *)

Lemma ticks_agree (position1 position2 : Vector3) (random1 random2 : R)
    (deltas : list R) (st1 st2 : State) :
  accumRef st1 = accumRef st2 ->
  ticks position1 random1 deltas st1 = ticks position2 random2 deltas st2 /\
  accumRef (run position1 random1 deltas st1)
  = accumRef (run position2 random2 deltas st2).
Proof.
  revert st1 st2. induction deltas as [|delta rest IH]; intros st1 st2 Hacc.
  - split; [reflexivity | exact Hacc].
  - cbn [run ticks].
    assert (E : applied delta st1 = applied delta st2)
      by (unfold applied; rewrite Hacc; reflexivity).
    destruct (IH (onFrame position1 random1 delta st1)
                 (onFrame position2 random2 delta st2)) as [Hn Ha].
    + rewrite !accumRef_frame, E, Hacc. reflexivity.
    + unfold tick. rewrite E, Hn. split; [reflexivity | exact Ha].
Qed.

(** X14: panels tick together.  Two panels whose accumulators agree, be
    they at different places, with different phases, or one of them
    without mesh, apply their ticks at the same frames of a session: the
    same number of ticks, the same accumulator after it, the same advance
    of [timeRef] and of [uOffset]. *)
Theorem panels_tick_together (position1 position2 : Vector3)
    (random1 random2 : R) (deltas : list R) (st1 st2 : State) :
  accumRef st1 = accumRef st2 ->
  ticks position1 random1 deltas st1 = ticks position2 random2 deltas st2 /\
  accumRef (run position1 random1 deltas st1)
  = accumRef (run position2 random2 deltas st2) /\
  timeRef (run position1 random1 deltas st1) - timeRef st1
  = timeRef (run position2 random2 deltas st2) - timeRef st2 /\
  v2x (uOffset (material (run position1 random1 deltas st1)))
  - v2x (uOffset (material st1))
  = v2x (uOffset (material (run position2 random2 deltas st2)))
    - v2x (uOffset (material st2)) /\
  v2y (uOffset (material (run position1 random1 deltas st1)))
  - v2y (uOffset (material st1))
  = v2y (uOffset (material (run position2 random2 deltas st2)))
    - v2y (uOffset (material st2)).
Proof.
  intros Hacc.
  destruct (ticks_agree position1 position2 random1 random2 deltas st1 st2
              Hacc) as [Hn Ha].
  split; [exact Hn|]. split; [exact Ha|].
  rewrite !timeRef_session, !uOffset_session, Hn. cbn [v2x v2y].
  repeat split; lra.
Qed.

Lemma panels_tick_together_witness :
  accumRef sample = accumRef other /\
  ticks origin 0 mixed sample = ticks elsewhere 0.5 mixed other /\
  accumRef (run origin 0 mixed sample)
  = accumRef (run elsewhere 0.5 mixed other) /\
  timeRef (run origin 0 mixed sample) - timeRef sample
  = timeRef (run elsewhere 0.5 mixed other) - timeRef other /\
  v2x (uOffset (material (run origin 0 mixed sample)))
  - v2x (uOffset (material sample))
  = v2x (uOffset (material (run elsewhere 0.5 mixed other)))
    - v2x (uOffset (material other)) /\
  v2y (uOffset (material (run origin 0 mixed sample)))
  - v2y (uOffset (material sample))
  = v2y (uOffset (material (run elsewhere 0.5 mixed other)))
    - v2y (uOffset (material other)).
Proof.
  assert (Hacc : accumRef sample = accumRef other) by reflexivity.
  split; [exact Hacc|].
  exact (panels_tick_together origin elsewhere 0 0.5 mixed sample other Hacc).
Defined.

(** *** The plane and the picture *)

(** X15: the plane of a panel has the proportions of its picture: its
    width is to its height as the width of the image is to its height,
    whatever the size of the panel. *)
Theorem plane_keeps_proportions (img : Image) (size : R) :
  IZR (height img) <> 0 -> size <> 0 ->
  fst (planeGeometry {| image := Some img |} size)
  / snd (planeGeometry {| image := Some img |} size)
  = IZR (width img) / IZR (height img).
Proof.
  intros Hh Hs. unfold planeGeometry, aspectRatio. cbn. field.
  split; assumption.
Qed.

Lemma plane_keeps_proportions_witness :
  IZR (height {| width := 400; height := 300 |}) <> 0 /\
  1.2 <> 0 /\
  fst (planeGeometry {| image := Some {| width := 400; height := 300 |} |} 1.2)
  / snd (planeGeometry
           {| image := Some {| width := 400; height := 300 |} |} 1.2)
  = IZR (width {| width := 400; height := 300 |})
    / IZR (height {| width := 400; height := 300 |}).
Proof.
  assert (Hh : IZR (height {| width := 400; height := 300 |}) <> 0)
    by (cbn; lra).
  assert (Hs : 1.2 <> 0) by lra.
  split; [exact Hh|]. split; [exact Hs|].
  exact (plane_keeps_proportions {| width := 400; height := 300 |} 1.2 Hh Hs).
Defined.

(** *** The scroll of a repeating texture *)

Section Repeat.

Variable texture2D : Texture -> Vector2 -> vec4.
Variable oceanTexture : Texture.

(** What [RepeatWrapping] on both axes (line 19) means for the sampler:
    one unit further along an axis the texel is the same. *)
Hypothesis repeatS : forall uv,
  texture2D oceanTexture {| v2x := v2x uv + 1; v2y := v2y uv |}
  = texture2D oceanTexture uv.
Hypothesis repeatT : forall uv,
  texture2D oceanTexture {| v2x := v2x uv; v2y := v2y uv + 1 |}
  = texture2D oceanTexture uv.

Lemma repeat_right (m : nat) (u v : R) :
  texture2D oceanTexture {| v2x := u + INR m; v2y := v |}
  = texture2D oceanTexture {| v2x := u; v2y := v |}.
Proof.
  induction m as [|m IH].
  - cbn [INR]. rewrite Rplus_0_r. reflexivity.
  - rewrite <- IH, <- (repeatS {| v2x := u + INR m; v2y := v |}).
    cbn [v2x v2y]. rewrite S_INR. do 2 f_equal. lra.
Qed.

Lemma repeat_down (m : nat) (u v : R) :
  texture2D oceanTexture {| v2x := u; v2y := v - INR m |}
  = texture2D oceanTexture {| v2x := u; v2y := v |}.
Proof.
  induction m as [|m IH].
  - cbn [INR]. rewrite Rminus_0_r. reflexivity.
  - rewrite <- IH, <- (repeatT {| v2x := u; v2y := v - INR (S m) |}).
    cbn [v2x v2y]. rewrite S_INR. do 2 f_equal. lra.
Qed.

(** X16: with an ocean texture that repeats, the picture of a mounted
    panel comes back every 300 ticks (10 seconds of animation): after
    [300 * m] ticks every fragment has the colour it had at the start. *)
Theorem scroll_comes_round (position : Vector3) (grayHint : R)
    (prophecyTexture : Texture) (random : R) (deltas : list R) (m : nat)
    (vUv : Vector2) :
  ticks position random deltas
    (mounted position grayHint prophecyTexture oceanTexture) = (300 * m)%nat ->
  fragmentShader texture2D
    (material (run position random deltas
                 (mounted position grayHint prophecyTexture oceanTexture)))
    vUv
  = fragmentShader texture2D
      (material (mounted position grayHint prophecyTexture oceanTexture)) vUv.
Proof.
  intros Hn.
  rewrite (material_session position random),
    (uOffset_session position random), Hn.
  unfold fragmentShader, set_uOffset, v2add.
  cbn [material mounted uProphecy uOcean uOffset uGrayHint v2x v2y].
  replace (v2x vUv + (0 + 0.1 * INR (300 * m) * targetDelta))
    with (v2x vUv + INR m)
    by (rewrite mult_INR, (INR_IZR_INZ 300); unfold targetDelta; cbn; lra).
  replace (v2y vUv + (0 - 0.1 * INR (300 * m) * targetDelta))
    with (v2y vUv - INR m)
    by (rewrite mult_INR, (INR_IZR_INZ 300); unfold targetDelta; cbn; lra).
  rewrite repeat_right, repeat_down, !Rplus_0_r.
  destruct vUv as [u v]. reflexivity.
Qed.

End Repeat.

Lemma wave_repeats :
  (forall uv, wave loading {| v2x := v2x uv + 1; v2y := v2y uv |}
              = wave loading uv) /\
  (forall uv, wave loading {| v2x := v2x uv; v2y := v2y uv + 1 |}
              = wave loading uv).
Proof.
  split; intros [u v]; unfold wave; cbn [v2x v2y]; do 2 f_equal.
  - replace ((u + 1) * (2 * PI)) with (u * (2 * PI) + 2 * INR 1 * PI)
      by (cbn [INR]; lra).
    apply sin_period.
  - replace ((v + 1) * (2 * PI)) with (v * (2 * PI) + 2 * INR 1 * PI)
      by (cbn [INR]; lra).
    apply sin_period.
Qed.

Lemma scroll_comes_round_witness :
  (forall uv, wave loading {| v2x := v2x uv + 1; v2y := v2y uv |}
              = wave loading uv) /\
  (forall uv, wave loading {| v2x := v2x uv; v2y := v2y uv + 1 |}
              = wave loading uv) /\
  ticks origin 0 (repeat targetDelta 300) sample = (300 * 1)%nat /\
  fragmentShader wave
    (material (run origin 0 (repeat targetDelta 300) sample))
    {| v2x := 0.2; v2y := 0.7 |}
  = fragmentShader wave (material sample) {| v2x := 0.2; v2y := 0.7 |}.
Proof.
  destruct wave_repeats as [HS HT].
  assert (Hn : ticks origin 0 (repeat targetDelta 300) sample
               = (300 * 1)%nat).
  { rewrite ticks_of_slow_frames; [apply repeat_length| |cbn; lra].
    apply Forall_forall. intros d Hd. apply repeat_spec in Hd. lra. }
  split; [exact HS|]. split; [exact HT|]. split; [exact Hn|].
  exact (scroll_comes_round wave loading HS HT origin 1 loading 0
           (repeat targetDelta 300) 1 {| v2x := 0.2; v2y := 0.7 |} Hn).
Defined.

End PanelFacts.
